(** * Terrastories schema analyser: the regex extractors and the reporter

    A shallow embedding of [scripts/analysis/analyze-schema.py].

    Text is a [string] of 8-bit characters, read as the bytes of the UTF-8
    encoding of the Python [str].  On 7-bit text the character classes
    below are exactly Python's; every delimiter the script looks for is a
    7-bit character, so literal, dot and negated-class matching agree with
    Python's code-point matching on any UTF-8 text.  The one thing left out
    is that Python's [\w] and [str.strip] also know letters and blanks
    above U+007F: here a byte above 127 is neither. *)

From Stdlib Require Import Bool Arith List Ascii String Lia.
From Stdlib Require DecimalString.
Import ListNotations.
Open Scope string_scope.
Open Scope list_scope.
Open Scope nat_scope.

Infix "+++" := String.append (right associativity, at level 60).

(** ** Characters the script names *)

Definition dquote : ascii := "034"%char.
Definition newline : ascii := "010"%char.
Definition comma : ascii := ","%char.
Definition rparen : ascii := ")"%char.

(** ** Results of code that may raise *)

Inductive exn : Set :=
| AttributeError      (* a method of [str] called on [None] *)
| IndexError          (* [col.split()[0]] on an empty list *)
| KeyError            (* [d[k]] for a key that [d] does not hold *)
| FileNotFoundError   (* [open(p, 'r')] where there is nothing *)
| IsADirectoryError   (* [open] on a directory *)
| FileExistsError.    (* [mkdir(exist_ok=True)] on an existing file *)

Inductive res (A : Type) : Type :=
| Ok (a : A)
| Raise (e : exn).
Arguments Ok {A} a.
Arguments Raise {A} e.

Definition bind {A B : Type} (x : res A) (f : A -> res B) : res B :=
  match x with
  | Ok a => f a
  | Raise e => Raise e
  end.

Declare Scope res_scope.
Delimit Scope res_scope with res.
Notation "x <- c ;; k" := (bind c (fun x => k))
  (at level 61, c at next level, right associativity) : res_scope.
Open Scope res_scope.

(** A [for] loop whose body may raise: the accumulator is threaded through
    the items in order and the first exception ends the loop. *)
Fixpoint for_each {A S : Type} (body : S -> A -> res S) (items : list A) (st : S)
  : res S :=
  match items with
  | [] => Ok st
  | x :: rest => st' <- body st x ;; for_each body rest st'
  end.

(** ** The [str] methods the script calls *)

Module Str.

Definition is_nonempty (s : string) : bool :=
  match s with
  | EmptyString => false
  | String _ _ => true
  end.

(** [str.isspace] on one character: TAB, LF, VT, FF, CR, the four
    separators 0x1c-0x1f and the blank. *)
Definition is_space (c : ascii) : bool :=
  let n := nat_of_ascii c in
  ((9 <=? n) && (n <=? 13)) || ((28 <=? n) && (n <=? 32)).

Fixpoint lstrip_by (p : ascii -> bool) (s : string) : string :=
  match s with
  | EmptyString => EmptyString
  | String c s' => if p c then lstrip_by p s' else s
  end.

Fixpoint rstrip_by (p : ascii -> bool) (s : string) : string :=
  match s with
  | EmptyString => EmptyString
  | String c s' =>
      match rstrip_by p s' with
      | EmptyString => if p c then EmptyString else String c EmptyString
      | String d t => String c (String d t)
      end
  end.

(** [s.strip()] *)
Definition strip (s : string) : string :=
  rstrip_by is_space (lstrip_by is_space s).

(** [s.rstrip(',')] *)
Definition rstrip_comma (s : string) : string :=
  rstrip_by (Ascii.eqb comma) s.

(** [s.split(sep)] for a one-character separator: never the empty list. *)
Fixpoint split_on (sep : ascii) (s : string) : list string :=
  match s with
  | EmptyString => [EmptyString]
  | String c s' =>
      if Ascii.eqb c sep then EmptyString :: split_on sep s'
      else match split_on sep s' with
           | h :: t => String c h :: t
           | [] => [String c EmptyString]
           end
  end.

(** [s.split()]: the maximal runs of non-blank characters. *)
Fixpoint split (s : string) : list string :=
  match s with
  | EmptyString => []
  | String c s' =>
      if is_space c then split s'
      else match s' with
           | EmptyString => [String c EmptyString]
           | String c' _ =>
               if is_space c' then String c EmptyString :: split s'
               else match split s' with
                    | h :: t => String c h :: t
                    | [] => [String c EmptyString]
                    end
           end
  end.

(** [s.startswith(p)] *)
Definition startswith (p s : string) : bool := String.prefix p s.

(** [p in s] *)
Fixpoint contains (p s : string) : bool :=
  String.prefix p s ||
  match s with
  | EmptyString => false
  | String _ s' => contains p s'
  end.

Definition upper_char (c : ascii) : ascii :=
  let n := nat_of_ascii c in
  if (97 <=? n) && (n <=? 122) then ascii_of_nat (n - 32) else c.

Definition lower_char (c : ascii) : ascii :=
  let n := nat_of_ascii c in
  if (65 <=? n) && (n <=? 90) then ascii_of_nat (n + 32) else c.

Fixpoint map_chars (f : ascii -> ascii) (s : string) : string :=
  match s with
  | EmptyString => EmptyString
  | String c s' => String (f c) (map_chars f s')
  end.

(** [s.upper()] *)
Definition upper (s : string) : string := map_chars upper_char s.

(** [s.capitalize()] *)
Definition capitalize (s : string) : string :=
  match s with
  | EmptyString => EmptyString
  | String c s' => String (upper_char c) (map_chars lower_char s')
  end.

(** [c * n] for a one-character string. *)
Fixpoint repeat_char (c : ascii) (n : nat) : string :=
  match n with
  | 0 => EmptyString
  | S n' => String c (repeat_char c n')
  end.

(** [str(n)] for a non-negative integer. *)
Definition of_nat (n : nat) : string :=
  DecimalString.NilZero.string_of_uint (Nat.to_uint n).

End Str.

(** ** The fragment of [re] the script uses

    A backtracking matcher in continuation-passing style: alternatives are
    tried in Python's order (a greedy repeat the longest first, a lazy one
    the shortest first, an optional group present first) and the first
    success is the match. *)

Module Re.

Inductive cls : Set :=
| Any                  (* [.] under [re.DOTALL] *)
| Word                 (* [\w] *)
| Not (c : ascii).     (* [[^c]] *)

Definition is_word (c : ascii) : bool :=
  let n := nat_of_ascii c in
  ((48 <=? n) && (n <=? 57)) || ((65 <=? n) && (n <=? 90))
  || ((97 <=? n) && (n <=? 122)) || (n =? 95).

Definition test (k : cls) (c : ascii) : bool :=
  match k with
  | Any => true
  | Word => is_word c
  | Not d => negb (Ascii.eqb c d)
  end.

Inductive regex : Set :=
| Lit (l : string)                          (* the characters of [l] *)
| Cat (r1 r2 : regex)                       (* [r1 r2] *)
| Opt (r : regex)                           (* [(?:r)?] *)
| Rep (greedy : bool) (min : nat) (k : cls) (* [k*], [k+], [k*?], [k+?] *)
| Grp (i : nat) (r : regex).                (* the [i]-th [( )] *)

(** The groups that took part in a match, the latest binding first. *)
Definition caps : Type := list (nat * string).

Fixpoint lookup (g : caps) (i : nat) : option string :=
  match g with
  | [] => None
  | (j, s) :: g' => if j =? i then Some s else lookup g' i
  end.

(** What is left of [s] after the literal [l], when [s] starts with it. *)
Fixpoint lit (l s : string) : option string :=
  match l with
  | EmptyString => Some s
  | String a l' =>
      match s with
      | EmptyString => None
      | String b s' => if Ascii.eqb a b then lit l' s' else None
      end
  end.

(** The first [n] characters of [s]. *)
Fixpoint take (n : nat) (s : string) : string :=
  match n, s with
  | S n', String c s' => String c (take n' s')
  | _, _ => EmptyString
  end.

(** The part of [s] in front of its suffix [rest]. *)
Definition consumed (s rest : string) : string :=
  take (String.length s - String.length rest) s.

Section Matcher.
Context {A : Type}.

Fixpoint rep_greedy (k : cls) (min : nat) (s : string)
    (K : string -> option A) : option A :=
  let stop := match min with 0 => K s | S _ => None end in
  match s with
  | EmptyString => stop
  | String c s' =>
      if test k c then
        match rep_greedy k (pred min) s' K with
        | Some x => Some x
        | None => stop
        end
      else stop
  end.

Fixpoint rep_lazy (k : cls) (min : nat) (s : string)
    (K : string -> option A) : option A :=
  let more :=
    match s with
    | EmptyString => None
    | String c s' => if test k c then rep_lazy k (pred min) s' K else None
    end in
  match min with
  | 0 => match K s with
         | Some x => Some x
         | None => more
         end
  | S _ => more
  end.

Fixpoint run (r : regex) (s : string) (g : caps)
    (K : string -> caps -> option A) : option A :=
  match r with
  | Lit l =>
      match lit l s with
      | Some s' => K s' g
      | None => None
      end
  | Cat r1 r2 => run r1 s g (fun s' g' => run r2 s' g' K)
  | Opt r1 =>
      match run r1 s g K with
      | Some x => Some x
      | None => K s g
      end
  | Rep true min k => rep_greedy k min s (fun s' => K s' g)
  | Rep false min k => rep_lazy k min s (fun s' => K s' g)
  | Grp i r1 => run r1 s g (fun s' g' => K s' ((i, consumed s s') :: g'))
  end.
End Matcher.

(** A match object: group 0 and the numbered groups. *)
Record matched : Type := { whole : string; groups : caps }.

(** [pattern.match(s)]: the match that starts at the head of [s], with
    the text behind it. *)
Definition match_at (r : regex) (s : string) : option (matched * string) :=
  run r s [] (fun rest g =>
    Some ({| whole := consumed s rest; groups := g |}, rest)).

(** [m.group(i)]: [None] for a group that took no part.  The script uses
    every group as a [str]; the access raises here where Python would
    hand on [None]. *)
Definition group (m : matched) (i : nat) : res string :=
  match lookup (groups m) i with
  | Some s => Ok s
  | None => Raise AttributeError
  end.

(** The scan shared by [re.finditer] and [re.sub]: matches are looked for
    from left to right, each search starting where the previous match
    ended.  [skip] counts the characters still inside the previous match. *)
Fixpoint scan (r : regex) (skip : nat) (s : string) : list matched :=
  match skip with
  | S n =>
      match s with
      | EmptyString => []
      | String _ s' => scan r n s'
      end
  | 0 =>
      match match_at r s with
      | Some (m, _) =>
          m :: match s with
               | EmptyString => []
               | String _ s' => scan r (pred (String.length (whole m))) s'
               end
      | None =>
          match s with
          | EmptyString => []
          | String _ s' => scan r 0 s'
          end
      end
  end.

(** [re.finditer(r, s)] *)
Definition finditer (r : regex) (s : string) : list matched := scan r 0 s.

Fixpoint sub_scan (r : regex) (repl : matched -> string) (skip : nat)
    (s : string) : string :=
  match skip with
  | S n =>
      match s with
      | EmptyString => EmptyString
      | String _ s' => sub_scan r repl n s'
      end
  | 0 =>
      match match_at r s with
      | Some (m, _) =>
          repl m +++
          match s with
          | EmptyString => EmptyString
          | String c s' =>
              match String.length (whole m) with
              | 0 => String c (sub_scan r repl 0 s')
              | S n => sub_scan r repl n s'
              end
          end
      | None =>
          match s with
          | EmptyString => EmptyString
          | String c s' => String c (sub_scan r repl 0 s')
          end
      end
  end.

(** [re.sub(r, repl, s)] *)
Definition sub (r : regex) (repl : matched -> string) (s : string) : string :=
  sub_scan r repl 0 s.

(** The template [\1]: an unmatched group is replaced by nothing. *)
Definition backref (i : nat) (m : matched) : string :=
  match lookup (groups m) i with
  | Some s => s
  | None => EmptyString
  end.

End Re.

(** ** [dict]: a finite map that remembers the order of insertion *)

Module Dict.

Definition t (V : Type) : Type := list (string * V).

(** [d[k] = v]: an existing key keeps its place and takes the new value,
    a new key goes to the end. *)
Fixpoint set {V : Type} (k : string) (v : V) (d : t V) : t V :=
  match d with
  | [] => [(k, v)]
  | (k', v') :: d' =>
      if String.eqb k' k then (k', v) :: d' else (k', v') :: set k v d'
  end.

Fixpoint get {V : Type} (d : t V) (k : string) : option V :=
  match d with
  | [] => None
  | (k', v') :: d' => if String.eqb k' k then Some v' else get d' k
  end.

(** [d.keys()] *)
Definition keys {V : Type} (d : t V) : list string := map fst d.

(** [k in d] *)
Definition mem {V : Type} (k : string) (d : t V) : bool :=
  match get d k with
  | Some _ => true
  | None => false
  end.

End Dict.

(** ** The table extractor *)

(** The pattern of the source, compiled with [re.DOTALL]: the literal
    [CREATE TABLE], the quoted schema [public], a dot, the quoted name as
    group 1 ([\w+]), a blank and an opening parenthesis, group 2 ([.*?]),
    and the closing parenthesis with its semicolon. *)
Definition create_table_head : string := Eval cbv in
  "CREATE TABLE " +++ String dquote "public" +++ String dquote "."
  +++ String dquote "".

Definition table_pattern : Re.regex :=
  Re.Cat (Re.Lit create_table_head)
 (Re.Cat (Re.Grp 1 (Re.Rep true 1 Re.Word))
 (Re.Cat (Re.Lit (String dquote " ("))
 (Re.Cat (Re.Grp 2 (Re.Rep false 0 Re.Any))
         (Re.Lit ");")))).

(** A double quote, group 1 of any characters but the double quote
    (greedy, possibly none), a double quote. *)
Definition quoted_pattern : Re.regex :=
  Re.Cat (Re.Lit (String dquote ""))
 (Re.Cat (Re.Grp 1 (Re.Rep true 0 (Re.Not dquote)))
         (Re.Lit (String dquote ""))).

(** The body of the loop over the lines of one column block. *)
Definition add_column (columns : list string) (line : string) : list string :=
  let line := Str.rstrip_comma (Str.strip line) in
  if Str.is_nonempty line && negb (Str.startswith "--" line) then
    let line := Re.sub quoted_pattern (Re.backref 1) line in
    columns ++ [Str.strip line]
  else columns.

Definition parse_columns (columns_text : string) : list string :=
  fold_left add_column (Str.split_on newline (Str.strip columns_text)) [].

Definition tables_t : Type := Dict.t (list string).

(** The body of the loop over the matches. *)
Definition add_table (tables : tables_t) (m : Re.matched) : res tables_t :=
  table_name <- Re.group m 1 ;;
  columns_text <- Re.group m 2 ;;
  Ok (Dict.set table_name (parse_columns columns_text) tables).

Definition parse_create_table (schema_content : string) : res tables_t :=
  for_each add_table (Re.finditer table_pattern schema_content) [].

(** ** The foreign-key extractor *)

(** [r'ALTER TABLE (?:ONLY )?public\.(\w+) ADD CONSTRAINT (\w+) FOREIGN KEY
    \(([^)]+)\) REFERENCES public\.(\w+)\(([^)]+)\)'] *)
Definition fk_pattern : Re.regex :=
  Re.Cat (Re.Lit "ALTER TABLE ")
 (Re.Cat (Re.Opt (Re.Lit "ONLY "))
 (Re.Cat (Re.Lit "public.")
 (Re.Cat (Re.Grp 1 (Re.Rep true 1 Re.Word))
 (Re.Cat (Re.Lit " ADD CONSTRAINT ")
 (Re.Cat (Re.Grp 2 (Re.Rep true 1 Re.Word))
 (Re.Cat (Re.Lit " FOREIGN KEY (")
 (Re.Cat (Re.Grp 3 (Re.Rep true 1 (Re.Not rparen)))
 (Re.Cat (Re.Lit ") REFERENCES public.")
 (Re.Cat (Re.Grp 4 (Re.Rep true 1 Re.Word))
 (Re.Cat (Re.Lit "(")
 (Re.Cat (Re.Grp 5 (Re.Rep true 1 (Re.Not rparen)))
         (Re.Lit ")")))))))))))).

Record foreign_key : Set := {
  source_table : string;
  source_column : string;
  target_table : string;
  target_column : string;
  constraint_name : string
}.

(** The body of the loop over the matches. *)
Definition add_foreign_key (foreign_keys : list foreign_key) (m : Re.matched)
  : res (list foreign_key) :=
  st <- Re.group m 1 ;;
  cn <- Re.group m 2 ;;
  sc <- Re.group m 3 ;;
  tt <- Re.group m 4 ;;
  tc <- Re.group m 5 ;;
  Ok (foreign_keys ++
      [{| source_table := st; source_column := sc; target_table := tt;
          target_column := tc; constraint_name := cn |}]).

Definition parse_foreign_keys (schema_content : string)
  : res (list foreign_key) :=
  for_each add_foreign_key (Re.finditer fk_pattern schema_content) [].

(** ** The reporter: classification and type suggestions *)

Definition core_tables : list string :=
  ["communities"; "users"; "stories"; "places"; "speakers"; "themes";
   "curriculums"].

(** ['_' in t and any(core in t for core in core_tables)] *)
Definition is_junction (t : string) : bool :=
  Str.contains "_" t && existsb (fun core => Str.contains core t) core_tables.

Definition junction_tables (tables : tables_t) : list string :=
  filter is_junction (Dict.keys tables).

Definition active_storage_tables (tables : tables_t) : list string :=
  filter (Str.startswith "active_storage") (Dict.keys tables).

(** The [if]/[elif] chain of the preview. *)
Definition ts_type (col : string) : string :=
  if Str.contains "bigint" col || Str.contains "integer" col then "number"
  else if Str.contains "character varying" col || Str.contains "text" col
  then "string"
  else if Str.contains "timestamp" col then "Date"
  else if Str.contains "boolean" col then "boolean"
  else "unknown".

(** [col.split()[0]] *)
Definition col_name (col : string) : res string :=
  match Str.split col with
  | name :: _ => Ok name
  | [] => Raise IndexError
  end.

(** ['?' if 'NOT NULL' not in col else ''] *)
Definition nullable (col : string) : string :=
  if negb (Str.contains "NOT NULL" col) then "?" else "".

(** The line the preview prints for one column. *)
Definition ts_field (col : string) : res string :=
  let ty := ts_type col in
  name <- col_name col ;;
  Ok ("  " +++ name +++ nullable col +++ ": " +++ ty +++ ";").

(** The line printed and written for one foreign key. *)
Definition fk_line (fk : foreign_key) : string :=
  source_table fk +++ "." +++ source_column fk +++ " → "
  +++ target_table fk +++ "." +++ target_column fk.

(** ** The run: files, directories and the console

    [files] maps a path to the text [read()] returns for it, [dirs] lists
    the directories, [console] holds the argument of every [print] so far,
    oldest first, and [date_output] is what the [date] command writes. *)

Record world : Type := {
  files : Dict.t string;
  dirs : list string;
  console : list string;
  date_output : string
}.

(** A computation changes the world and returns or raises; what it did
    before raising stays done. *)
Definition IO (A : Type) : Type := world -> res A * world.

Definition ret {A : Type} (a : A) : IO A := fun w => (Ok a, w).

Definition io_bind {A B : Type} (c : IO A) (k : A -> IO B) : IO B :=
  fun w =>
    match c w with
    | (Ok a, w') => k a w'
    | (Raise e, w') => (Raise e, w')
    end.

Declare Scope io_scope.
Delimit Scope io_scope with io.
Notation "x <- c ;; k" := (io_bind c (fun x => k))
  (at level 61, c at next level, right associativity) : io_scope.
Notation "c ;; k" := (io_bind c (fun _ => k))
  (at level 61, right associativity) : io_scope.

Definition lift {A : Type} (r : res A) : IO A := fun w => (r, w).

Fixpoint for_ {A : Type} (items : list A) (body : A -> IO unit) : IO unit :=
  match items with
  | [] => ret tt
  | x :: rest => io_bind (body x) (fun _ => for_ rest body)
  end.

Definition when (b : bool) (c : IO unit) : IO unit :=
  if b then c else ret tt.

Definition is_dir (w : world) (p : string) : bool :=
  existsb (String.eqb p) (dirs w).

(** [Path(p).exists()] *)
Definition path_exists (p : string) : IO bool :=
  fun w => (Ok (Dict.mem p (files w) || is_dir w p), w).

(** [open(p, 'r')] followed by [f.read()] *)
Definition read_text (p : string) : IO string :=
  fun w =>
    if is_dir w p then (Raise IsADirectoryError, w)
    else match Dict.get (files w) p with
         | Some text => (Ok text, w)
         | None => (Raise FileNotFoundError, w)
         end.

Definition print (line : string) : IO unit :=
  fun w => (Ok tt, {| files := files w; dirs := dirs w;
                      console := console w ++ [line];
                      date_output := date_output w |}).

(** [Path(p).mkdir(exist_ok=True)] *)
Definition mkdir_exist_ok (p : string) : IO unit :=
  fun w =>
    if is_dir w p then (Ok tt, w)
    else if Dict.mem p (files w) then (Raise FileExistsError, w)
    else (Ok tt, {| files := files w; dirs := dirs w ++ [p];
                    console := console w;
                    date_output := date_output w |}).

(** [open(p, 'w')]: the file is created, or emptied when it exists. *)
Definition open_w (p : string) : IO unit :=
  fun w =>
    if is_dir w p then (Raise IsADirectoryError, w)
    else (Ok tt, {| files := Dict.set p "" (files w); dirs := dirs w;
                    console := console w;
                    date_output := date_output w |}).

(** [f.write(text)] on the file opened at [p] *)
Definition write (p text : string) : IO unit :=
  fun w =>
    match Dict.get (files w) p with
    | Some old =>
        (Ok tt, {| files := Dict.set p (old +++ text) (files w);
                   dirs := dirs w; console := console w;
                   date_output := date_output w |})
    | None => (Raise FileNotFoundError, w)
    end.

(** [os.popen('date').read()] *)
Definition popen_date : IO string := fun w => (Ok (date_output w), w).

(** [tables[table]] *)
Definition columns_of (tables : tables_t) (table : string) : IO (list string) :=
  lift match Dict.get tables table with
       | Some cols => Ok cols
       | None => Raise KeyError
       end.

Definition schema_file : string := "dump-analysis/schema.sql".
Definition output_dir : string := "migration-analysis".
Definition output_file : string := "migration-analysis/schema_analysis.txt".

Definition not_found_message : string :=
  "❌ Schema file not found. Please run ./analyze-dump.sh first".

Definition nl : string := String newline "".
Definition rule : string := Str.repeat_char "="%char 50.

Definition analyze_terrastories_schema : IO unit :=
 (found <- path_exists schema_file ;;
  if negb found then print not_found_message
  else
    schema_content <- read_text schema_file ;;
    print ("🔍 Analyzing Terrastories Database Schema for TypeScript Migration"
           +++ nl) ;;
    tables <- lift (parse_create_table schema_content) ;;
    print "📊 CORE DOMAIN TABLES:" ;;
    print rule ;;
    for_ core_tables (fun table =>
      when (Dict.mem table tables)
        (cols <- columns_of tables table ;;
         print (nl +++ "🏷️  " +++ Str.upper table +++ ":") ;;
         for_ (firstn 10 cols) (fun col => print ("   • " +++ col)) ;;
         when (10 <? List.length cols)
           (print ("   ... and " +++ Str.of_nat (List.length cols - 10)
                   +++ " more columns")))) ;;
    let junction := junction_tables tables in
    print (nl +++ "🔗 RELATIONSHIP TABLES:") ;;
    print rule ;;
    for_ junction (fun table =>
      print ("• " +++ table) ;;
      cols <- columns_of tables table ;;
      for_ cols (fun col => print ("  - " +++ col))) ;;
    let active_storage := active_storage_tables tables in
    print (nl +++ "📱 MEDIA TABLES (ActiveStorage):") ;;
    print rule ;;
    for_ active_storage (fun table => print ("• " +++ table)) ;;
    foreign_keys <- lift (parse_foreign_keys schema_content) ;;
    print (nl +++ "🔗 FOREIGN KEY RELATIONSHIPS:") ;;
    print rule ;;
    for_ foreign_keys (fun fk => print ("• " +++ fk_line fk)) ;;
    print (nl +++ "🎯 TYPESCRIPT MIGRATION INSIGHTS:") ;;
    print rule ;;
    print (nl +++ "📋 Recommended TypeScript Types:") ;;
    for_ core_tables (fun table =>
      when (Dict.mem table tables)
        (print (nl +++ "// " +++ Str.capitalize table +++ " entity") ;;
         print ("interface " +++ Str.capitalize table +++ " {") ;;
         cols <- columns_of tables table ;;
         for_ (firstn 5 cols) (fun col =>
           line <- lift (ts_field col) ;;
           print line) ;;
         print "  // ... other fields" ;;
         print "}")) ;;
    print (nl +++ "🗺️ MIGRATION PRIORITY:") ;;
    print rule ;;
    print "1. Core entities: Community, User, Story, Place, Speaker" ;;
    print "2. Relationship tables: story_places, story_speakers" ;;
    print "3. Media system: ActiveStorage → new media handling" ;;
    print "4. Theme & Curriculum systems" ;;
    print "5. Feature flags (flipper_*)" ;;
    mkdir_exist_ok output_dir ;;
    open_w output_file ;;
    write output_file ("TERRASTORIES SCHEMA ANALYSIS" +++ nl) ;;
    date <- popen_date ;;
    write output_file ("Generated: " +++ Str.strip date +++ nl +++ nl) ;;
    write output_file ("CORE TABLES:" +++ nl) ;;
    for_ core_tables (fun table =>
      when (Dict.mem table tables)
        (write output_file (nl +++ table +++ ":" +++ nl) ;;
         cols <- columns_of tables table ;;
         for_ cols (fun col => write output_file ("  " +++ col +++ nl)))) ;;
    write output_file (nl +++ "FOREIGN KEYS:" +++ nl) ;;
    for_ foreign_keys (fun fk => write output_file (fk_line fk +++ nl)) ;;
    print (nl +++ "✅ Analysis complete! Detailed results saved to migration-analysis/")
 )%io.

(** ** Inputs and characterisations used by the statements *)

(** [s] between double quotes. *)
Definition quoted (s : string) : string :=
  String dquote (s +++ String dquote "").

(** The one-line snippet of the testable properties. *)
Definition users_ddl : string :=
  "CREATE TABLE " +++ quoted "public" +++ "." +++ quoted "users" +++ " ("
  +++ quoted "id" +++ " bigint NOT NULL, " +++ quoted "name"
  +++ " character varying);".

(** The same table the way [pg_dump] lays it out, a column to a line. *)
Definition users_ddl_lines : string :=
  "CREATE TABLE " +++ quoted "public" +++ "." +++ quoted "users" +++ " ("
  +++ nl +++ "    " +++ quoted "id" +++ " bigint NOT NULL,"
  +++ nl +++ "    " +++ quoted "name" +++ " character varying"
  +++ nl +++ ");".

Definition stories_fk_ddl : string :=
  "ALTER TABLE ONLY public.stories ADD CONSTRAINT fk_x FOREIGN KEY (community_id) REFERENCES public.communities(id)".

(** Every character of [s] passes [p]. *)
Fixpoint all_chars (p : ascii -> bool) (s : string) : bool :=
  match s with
  | EmptyString => true
  | String c s' => p c && all_chars p s'
  end.

(** A non-empty run of word characters: what [\w+] can take whole. *)
Definition is_identifier (s : string) : bool :=
  Str.is_nonempty s && all_chars Re.is_word s.

(** A non-empty text without a closing parenthesis: what [[^)]+] can take
    whole. *)
Definition is_column_list (s : string) : bool :=
  Str.is_nonempty s && all_chars (Re.test (Re.Not rparen)) s.

(** A foreign-key statement as [pg_dump] writes it. *)
Definition fk_statement (only : bool) (st cn sc tt tc : string) : string :=
  "ALTER TABLE " +++ (if only then "ONLY " else "") +++ "public." +++ st
  +++ " ADD CONSTRAINT " +++ cn +++ " FOREIGN KEY (" +++ sc
  +++ ") REFERENCES public." +++ tt +++ "(" +++ tc +++ ")".

(** The groups [r] binds in every match. *)
Fixpoint must_bind (r : Re.regex) (i : nat) : bool :=
  match r with
  | Re.Lit _ => false
  | Re.Cat r1 r2 => must_bind r1 i || must_bind r2 i
  | Re.Opt _ => false
  | Re.Rep _ _ _ => false
  | Re.Grp j r1 => (j =? i) || must_bind r1 i
  end.

(** The first whitespace-separated token, in the words of the claim: skip
    the leading blanks, then take characters up to the next blank. *)
Fixpoint take_nonblank (s : string) : string :=
  match s with
  | EmptyString => EmptyString
  | String c s' => if Str.is_space c then EmptyString
                   else String c (take_nonblank s')
  end.

Definition first_token (s : string) : string :=
  take_nonblank (Str.lstrip_by Str.is_space s).

(** The world after a run that only printed [line]. *)
Definition printed (line : string) (w : world) : world :=
  {| files := files w; dirs := dirs w; console := console w ++ [line];
     date_output := date_output w |}.


(** What the two loop bodies do with a match whose groups all took part. *)
Definition set_table (tables : tables_t) (m : Re.matched) : tables_t :=
  Dict.set (Re.backref 1 m) (parse_columns (Re.backref 2 m)) tables.

Definition fk_of_match (m : Re.matched) : foreign_key :=
  {| source_table := Re.backref 1 m; source_column := Re.backref 3 m;
     target_table := Re.backref 4 m; target_column := Re.backref 5 m;
     constraint_name := Re.backref 2 m |}.

(** Group [i] took part in [m]. *)
Definition bound (m : Re.matched) (i : nat) : Prop :=
  Re.lookup (Re.groups m) i <> None.

(** [m] holds every group that [r] always binds. *)
Definition complete (r : Re.regex) (m : Re.matched) : Prop :=
  forall i, must_bind r i = true -> bound m i.

(** A repeat of class [k] cannot go on into [s]. *)
Definition stops (k : Re.cls) (s : string) : bool :=
  match s with
  | EmptyString => true
  | String c _ => negb (Re.test k c)
  end.

(** Two definitions of the same table in one dump. *)
Definition users_twice_ddl : string :=
  "CREATE TABLE " +++ quoted "public" +++ "." +++ quoted "users" +++ " ("
  +++ nl +++ "    " +++ quoted "id" +++ " integer"
  +++ nl +++ ");" +++ nl +++
  "CREATE TABLE " +++ quoted "public" +++ "." +++ quoted "users" +++ " ("
  +++ nl +++ "    " +++ quoted "id" +++ " bigint NOT NULL,"
  +++ nl +++ "    " +++ quoted "email" +++ " text"
  +++ nl +++ ");".

(** ** Characterisations used by the further properties *)






Definition well_formed_fk (fk : foreign_key) : bool :=
  is_identifier (source_table fk) && is_column_list (source_column fk)
  && is_identifier (target_table fk) && is_column_list (target_column fk)
  && is_identifier (constraint_name fk).

(** A table definition as the pattern expects it. *)
Definition table_statement (name body : string) : string :=
  create_table_head +++ name +++ String dquote " (" +++ body +++ ");".

(** The mapping [later] with the binding of [name] to [cols] put under
    it: [later] wins where it binds. *)
Definition get_under (later : tables_t) (name : string) (cols : list string)
    (n : string) : option (list string) :=
  match Dict.get later n with
  | Some c => Some c
  | None => if String.eqb name n then Some cols else None
  end.

(** Quotes of a line, counted and dropped from the left. *)
Definition is_dquote (c : ascii) : bool := Ascii.eqb c dquote.

Fixpoint count_quotes (s : string) : nat :=
  match s with
  | EmptyString => 0
  | String c s' => (if is_dquote c then 1 else 0) + count_quotes s'
  end.

(** [s] without its first [n] double quotes. *)
Fixpoint drop_quotes (n : nat) (s : string) : string :=
  match s with
  | EmptyString => EmptyString
  | String c s' =>
      if is_dquote c then
        match n with
        | 0 => String c s'
        | S n' => drop_quotes n' s'
        end
      else String c (drop_quotes n s')
  end.

Definition no_newline (s : string) : bool :=
  all_chars (fun c => negb (Ascii.eqb c newline)) s.

(** What every column fragment satisfies: no blank at either end, no
    newline, at most one double quote. *)
Definition fragment_ok (col : string) : Prop :=
  Str.strip col = col /\ no_newline col = true /\ count_quotes col <= 1.

(** A column block the way the dump lays it out: a newline, then a
    line for each column (four blanks, the quoted name, a blank and the
    declaration), the lines separated by a comma and a newline, and a
    newline at the end. *)
Definition line_text (name decl : string) : string :=
  quoted name +++ " " +++ decl.

Fixpoint unindented (name decl : string) (rest : list (string * string))
  : string :=
  line_text name decl +++
  match rest with
  | [] => ""
  | (name', decl') :: rest' =>
      "," +++ nl +++ "    " +++ unindented name' decl' rest'
  end.

Definition column_lines (cols : list (string * string)) : string :=
  match cols with
  | [] => ""
  | (name, decl) :: rest => "    " +++ unindented name decl rest
  end.

Definition column_block (cols : list (string * string)) : string :=
  nl +++ column_lines cols +++ nl.

(** The fragment expected for a column. *)
Definition fragment_of (col : string * string) : string :=
  fst col +++ " " +++ snd col.

(** The last character of [d] exists and does not pass [p]. *)
Fixpoint last_not (p : ascii -> bool) (d : string) : bool :=
  match d with
  | EmptyString => false
  | String c d' =>
      match d' with
      | EmptyString => negb (p c)
      | String _ _ => last_not p d'
      end
  end.

(** A declaration: no newline, no double quote, and a last character that
    is neither a blank nor a comma. *)
Definition is_declaration (d : string) : bool :=
  all_chars (fun c => negb (Ascii.eqb c newline) && negb (is_dquote c)) d
  && last_not Str.is_space d && last_not (Ascii.eqb comma) d.

Definition is_column (col : string * string) : bool :=
  is_identifier (fst col) && is_declaration (snd col).

(** Every fragment the preview shows has a token to name its field. *)
Definition previews_ok (tables : tables_t) : bool :=
  forallb (fun table =>
             match Dict.get tables table with
             | Some cols =>
                 forallb (fun col => match Str.split col with
                                     | [] => false
                                     | _ :: _ => true
                                     end) (firstn 5 cols)
             | None => true
             end) core_tables.

(** ** Specifications of runs *)

(** Started in a world that satisfies [P], the computation [c] returns a
    value and a world that satisfy [Q], or raises an exception in a world
    that satisfies [E]. *)
Definition hoare {A : Type} (P : world -> Prop) (c : IO A)
    (Q : A -> world -> Prop) (E : exn -> world -> Prop) : Prop :=
  forall w, P w ->
    match c w with
    | (Ok a, w') => Q a w'
    | (Raise e, w') => E e w'
    end.

(** The world holds the files [F] and the directories [D]; against the
    starting world [w0] the date is the same and the console has only
    grown. *)
Definition state (w0 : world) (F : Dict.t string) (D : list string)
    (w : world) : Prop :=
  files w = F /\ dirs w = D /\ date_output w = date_output w0 /\
  exists out, console w = console w0 ++ out.

Definition has_dir (D : list string) (p : string) : bool :=
  existsb (String.eqb p) D.

(** The directories after [mkdir(exist_ok=True)] of [p]. *)
Definition dirs_with (D : list string) (p : string) : list string :=
  if has_dir D p then D else D ++ [p].

Fixpoint concat_map {A : Type} (f : A -> string) (xs : list A) : string :=
  match xs with
  | [] => ""
  | x :: rest => f x +++ concat_map f rest
  end.

(** The text of the summary file, read off the [f.write] calls: the
    heading, the date, a section for each core table that was parsed, and
    a line for each foreign key. *)
Definition summary_columns (cols : list string) : string :=
  concat_map (fun col => "  " +++ col +++ nl) cols.

Definition summary_section (tables : tables_t) (table : string) : string :=
  match Dict.get tables table with
  | Some cols => (nl +++ table +++ ":" +++ nl) +++ summary_columns cols
  | None => ""
  end.

Definition summary_text (date : string) (tables : tables_t)
    (fks : list foreign_key) : string :=
  ("TERRASTORIES SCHEMA ANALYSIS" +++ nl)
  +++ ("Generated: " +++ Str.strip date +++ nl +++ nl)
  +++ ("CORE TABLES:" +++ nl)
  +++ concat_map (summary_section tables) core_tables
  +++ (nl +++ "FOREIGN KEYS:" +++ nl)
  +++ concat_map (fun fk => fk_line fk +++ nl) fks.

(** Some core table has, among its first five fragments, one without a
    token: the preview cannot name its field. *)
Definition blank_preview (tables : tables_t) : Prop :=
  exists table cols col,
    In table core_tables /\ Dict.get tables table = Some cols /\
    In col (firstn 5 cols) /\ Str.split col = [].

(** What is known of a run from [w0] that raised [e] in [w]. *)
Definition run_raised (w0 : world) (e : exn) (w : world) : Prop :=
  files w = files w0 /\ date_output w = date_output w0 /\
  (exists out, console w = console w0 ++ out) /\
  match e with
  | IsADirectoryError =>
      (is_dir w0 schema_file = true /\ dirs w = dirs w0) \/
      (is_dir w0 output_file = true /\
       dirs w = dirs_with (dirs w0) output_dir)
  | FileExistsError =>
      Dict.mem output_dir (files w0) = true /\
      is_dir w0 output_dir = false /\ dirs w = dirs w0
  | IndexError =>
      dirs w = dirs w0 /\
      exists text tables,
        Dict.get (files w0) schema_file = Some text /\
        parse_create_table text = Ok tables /\ blank_preview tables
  | _ => False
  end.

(** What is known of a run from [w0] that returned in [w]. *)
Definition run_returned (w0 w : world) : Prop :=
  date_output w = date_output w0 /\
  (exists out, console w = console w0 ++ out) /\
  ((Dict.mem schema_file (files w0) || is_dir w0 schema_file = false /\
    files w = files w0 /\ dirs w = dirs w0 /\
    console w = console w0 ++ [not_found_message]) \/
   (exists text tables fks,
      Dict.get (files w0) schema_file = Some text /\
      parse_create_table text = Ok tables /\
      parse_foreign_keys text = Ok fks /\
      (is_dir w0 schema_file = false /\ previews_ok tables = true /\
       (is_dir w0 output_dir = true \/
        Dict.mem output_dir (files w0) = false) /\
       is_dir w0 output_file = false) /\
      files w =
        Dict.set output_file
          (summary_text (date_output w0) tables fks) (files w0) /\
      dirs w = dirs_with (dirs w0) output_dir)).

(** ** Whole dumps *)

(** Foreign-key statements, each closed by a semicolon and a newline. *)
Definition fk_text (only : bool) (fk : foreign_key) : string :=
  fk_statement only (source_table fk) (constraint_name fk)
    (source_column fk) (target_table fk) (target_column fk).

Definition fk_dump (only : bool) (fks : list foreign_key) : string :=
  concat_map (fun fk => fk_text only fk +++ ";" +++ nl) fks.





(** * Properties *)

(** ** Type suggestions and classification *)

(** C4: a fragment containing [bigint] is suggested [number]; a fragment
    containing [boolean] and none of the tokens checked before it is
    suggested [boolean]; a fragment containing none of the six recognised
    tokens is suggested [unknown]. *)
Theorem ts_type_heuristic (col : string) :
  (Str.contains "bigint" col = true -> ts_type col = "number") /\
  (Str.contains "boolean" col = true ->
   Str.contains "bigint" col = false ->
   Str.contains "integer" col = false ->
   Str.contains "character varying" col = false ->
   Str.contains "text" col = false ->
   Str.contains "timestamp" col = false ->
   ts_type col = "boolean") /\
  (Str.contains "bigint" col = false ->
   Str.contains "integer" col = false ->
   Str.contains "character varying" col = false ->
   Str.contains "text" col = false ->
   Str.contains "timestamp" col = false ->
   Str.contains "boolean" col = false ->
   ts_type col = "unknown").
Proof.
  unfold ts_type; repeat split.
  - intros ->; reflexivity.
  - intros Hb -> -> -> -> ->; cbn; rewrite Hb; reflexivity.
  - intros -> -> -> -> -> ->; reflexivity.
Qed.

Lemma ts_type_heuristic_witness :
  ts_type "id bigint NOT NULL" = "number" /\
  ts_type "restricted boolean DEFAULT false" = "boolean" /\
  ts_type "location jsonb" = "unknown".
Proof.
  split; [|split].
  - apply (proj1 (ts_type_heuristic "id bigint NOT NULL")); reflexivity.
  - apply (proj1 (proj2 (ts_type_heuristic "restricted boolean DEFAULT false")));
      reflexivity.
  - apply (proj2 (proj2 (ts_type_heuristic "location jsonb"))); reflexivity.
Defined.

(** C5: among the parsed tables, [story_speakers] is listed as a junction
    table and [active_storage_blobs] as a media table. *)
Theorem classification_heuristic (tables : tables_t) :
  (In "story_speakers" (Dict.keys tables) ->
   In "story_speakers" (junction_tables tables)) /\
  (In "active_storage_blobs" (Dict.keys tables) ->
   In "active_storage_blobs" (active_storage_tables tables)).
Proof.
  split; intro H.
  - unfold junction_tables; apply filter_In; split; [exact H | reflexivity].
  - unfold active_storage_tables; apply filter_In; split;
      [exact H | reflexivity].
Qed.

Lemma classification_heuristic_witness :
  In "story_speakers"
     (junction_tables [("story_speakers", ["id bigint NOT NULL"]);
                       ("active_storage_blobs", ["id bigint NOT NULL"])]) /\
  In "active_storage_blobs"
     (active_storage_tables [("story_speakers", ["id bigint NOT NULL"]);
                             ("active_storage_blobs", ["id bigint NOT NULL"])]).
Proof.
  split.
  - apply (proj1 (classification_heuristic _)); simpl; auto.
  - apply (proj2 (classification_heuristic _)); simpl; auto.
Defined.

(** ** The two extractors on the snippets of the specification *)

(** C1, as the code has it: the one-line snippet yields the key [users]
    with a single fragment, the text between the parentheses without its
    double quotes; the two column definitions come out as two fragments
    when each stands on a line of its own. *)
Theorem users_table_extracted :
  parse_create_table users_ddl =
    Ok [("users", ["id bigint NOT NULL, name character varying"])] /\
  parse_create_table users_ddl_lines =
    Ok [("users", ["id bigint NOT NULL"; "name character varying"])].
Proof. split; vm_compute; reflexivity. Qed.

(** C1 as stated fails: on the one-line snippet the value bound to [users]
    is not the list of the two separate column fragments. *)
Lemma users_table_one_line_not_split :
  ~ exists tables,
      parse_create_table users_ddl = Ok tables /\
      Dict.keys tables = ["users"] /\
      Dict.get tables "users" =
        Some ["id bigint NOT NULL"; "name character varying"].
Proof.
  intros (tables & Hp & _ & Hg).
  vm_compute in Hp. injection Hp as <-.
  vm_compute in Hg. discriminate Hg.
Qed.

(** C2: the single statement yields exactly one record, with source
    [stories.community_id], target [communities.id] and constraint
    [fk_x]. *)
Theorem stories_fk_extracted :
  parse_foreign_keys stories_fk_ddl =
    Ok [{| source_table := "stories"; source_column := "community_id";
           target_table := "communities"; target_column := "id";
           constraint_name := "fk_x" |}].
Proof. vm_compute; reflexivity. Qed.

(** ** The missing input *)

(** C3: when nothing exists at the fixed input path, the run returns
    normally and its only effect is the not-found line on the console:
    no directory is created and no file is written. *)
Theorem missing_input_only_prints (w : world) :
  Dict.mem schema_file (files w) = false ->
  is_dir w schema_file = false ->
  analyze_terrastories_schema w = (Ok tt, printed not_found_message w) /\
  files (printed not_found_message w) = files w /\
  dirs (printed not_found_message w) = dirs w /\
  is_dir (printed not_found_message w) output_dir = is_dir w output_dir /\
  Dict.get (files (printed not_found_message w)) output_file =
    Dict.get (files w) output_file.
Proof.
  intros Hf Hd. split; [|repeat split].
  unfold analyze_terrastories_schema.
  unfold io_bind at 1. unfold path_exists.
  rewrite Hf, Hd. reflexivity.
Qed.

Lemma missing_input_only_prints_witness :
  analyze_terrastories_schema
    {| files := [("README.md", "notes")]; dirs := ["scripts"];
       console := []; date_output := "" |} =
  (Ok tt, {| files := [("README.md", "notes")]; dirs := ["scripts"];
             console := [not_found_message]; date_output := "" |}).
Proof.
  apply (missing_input_only_prints
           {| files := [("README.md", "notes")]; dirs := ["scripts"];
              console := []; date_output := "" |}); reflexivity.
Defined.

(** ** The matcher: a success is a success of the continuation *)

Section RunFacts.
Context {A : Type}.

Lemma rep_greedy_calls (k : Re.cls) :
  forall s min (K : string -> option A) x,
    Re.rep_greedy k min s K = Some x -> exists s', K s' = Some x.
Proof.
  induction s as [|c s IH]; intros min K x; simpl.
  - destruct min; [eauto | discriminate].
  - destruct (Re.test k c).
    + destruct (Re.rep_greedy k (pred min) s K) eqn:E.
      * intros [= ->]. eapply IH; eassumption.
      * destruct min; [eauto | discriminate].
    + destruct min; [eauto | discriminate].
Qed.

Lemma rep_lazy_calls (k : Re.cls) :
  forall s min (K : string -> option A) x,
    Re.rep_lazy k min s K = Some x -> exists s', K s' = Some x.
Proof.
  induction s as [|c s IH]; intros min K x; simpl.
  - destruct min; [|discriminate].
    destruct (K "") eqn:E; [intros [= ->]; eauto | discriminate].
  - destruct min.
    + destruct (K (String c s)) eqn:E; [intros [= ->]; eauto |].
      destruct (Re.test k c); [apply IH | discriminate].
    + destruct (Re.test k c); [apply IH | discriminate].
Qed.

(** Groups are only ever added, and a success of [r] has added every
    group [r] must bind. *)
Lemma run_binds :
  forall r s g (K : string -> Re.caps -> option A) x,
    Re.run r s g K = Some x ->
    exists s' g',
      K s' g' = Some x /\
      (forall i, Re.lookup g i <> None -> Re.lookup g' i <> None) /\
      (forall i, must_bind r i = true -> Re.lookup g' i <> None).
Proof.
  induction r as [l | r1 IH1 r2 IH2 | r1 IH1 | greedy min k | j r1 IH1];
    intros s g K x H; simpl in H.
  - destruct (Re.lit l s) as [s'|]; [|discriminate].
    exists s', g. repeat split; auto. discriminate.
  - apply IH1 in H as (s1 & g1 & H & Hk1 & Hb1).
    apply IH2 in H as (s2 & g2 & H & Hk2 & Hb2).
    exists s2, g2. repeat split; auto.
    intros i Hi. simpl in Hi. apply orb_true_iff in Hi as [Hi|Hi]; auto.
  - destruct (Re.run r1 s g K) eqn:E.
    + injection H as ->. apply IH1 in E as (s1 & g1 & H & Hk1 & _).
      exists s1, g1. repeat split; auto. discriminate.
    + exists s, g. repeat split; auto. discriminate.
  - destruct greedy;
      [apply rep_greedy_calls in H | apply rep_lazy_calls in H];
      destruct H as (s' & H); exists s', g; repeat split; auto; discriminate.
  - apply IH1 in H as (s1 & g1 & H & Hk1 & Hb1).
    eexists s1, _. split; [exact H|]. split; intros i Hi; simpl.
    + destruct (j =? i); [discriminate | auto].
    + simpl in Hi. destruct (j =? i); [discriminate | auto].
Qed.
End RunFacts.

Lemma match_at_complete (r : Re.regex) (s rest : string) (m : Re.matched) :
  Re.match_at r s = Some (m, rest) ->
  complete r m /\ Re.whole m = Re.consumed s rest.
Proof.
  unfold Re.match_at. intro H.
  apply run_binds in H as (s' & g' & H & _ & Hb).
  injection H as <- <-. split; [exact Hb | reflexivity].
Qed.

Lemma scan_complete (r : Re.regex) :
  forall s skip, Forall (complete r) (Re.scan r skip s).
Proof.
  induction s as [|c s IH]; intros [|n]; simpl; auto.
  - destruct (Re.match_at r "") as [[m rest]|] eqn:E; auto.
    apply match_at_complete in E as [E _]. auto.
  - destruct (Re.match_at r (String c s)) as [[m rest]|] eqn:E; auto.
    apply match_at_complete in E as [E _]. auto.
Qed.

Lemma group_bound (m : Re.matched) (i : nat) :
  bound m i -> Re.group m i = Ok (Re.backref i m).
Proof.
  unfold bound, Re.group, Re.backref.
  destruct (Re.lookup (Re.groups m) i); [reflexivity | congruence].
Qed.

Lemma group_ok (m : Re.matched) (i : nat) (s : string) :
  Re.group m i = Ok s -> Re.backref i m = s /\ bound m i.
Proof.
  unfold bound, Re.group, Re.backref.
  destruct (Re.lookup (Re.groups m) i); [|discriminate].
  intros [= ->]. split; [reflexivity | discriminate].
Qed.

(** On complete matches neither loop can raise: each is a plain fold. *)
Lemma add_table_complete (tables : tables_t) (m : Re.matched) :
  complete table_pattern m -> add_table tables m = Ok (set_table tables m).
Proof.
  intro Hc. unfold add_table.
  rewrite (group_bound m 1), (group_bound m 2) by (apply Hc; reflexivity).
  reflexivity.
Qed.

Lemma for_each_add_table (ms : list Re.matched) :
  Forall (complete table_pattern) ms ->
  forall tables,
    for_each add_table ms tables = Ok (fold_left set_table ms tables).
Proof.
  induction 1 as [|m ms Hm _ IH]; intro tables; simpl; [reflexivity|].
  rewrite add_table_complete by assumption. simpl. apply IH.
Qed.

Lemma add_foreign_key_complete (fks : list foreign_key) (m : Re.matched) :
  complete fk_pattern m -> add_foreign_key fks m = Ok (fks ++ [fk_of_match m]).
Proof.
  intro Hc. unfold add_foreign_key.
  rewrite (group_bound m 1), (group_bound m 2), (group_bound m 3),
    (group_bound m 4), (group_bound m 5) by (apply Hc; reflexivity).
  reflexivity.
Qed.

Lemma for_each_add_foreign_key (ms : list Re.matched) :
  Forall (complete fk_pattern) ms ->
  forall fks,
    for_each add_foreign_key ms fks = Ok (fks ++ map fk_of_match ms).
Proof.
  induction 1 as [|m ms Hm _ IH]; intro fks; simpl.
  - rewrite app_nil_r. reflexivity.
  - rewrite add_foreign_key_complete by assumption. simpl.
    rewrite IH, <- app_assoc. reflexivity.
Qed.

Lemma parse_create_table_fold (s : string) :
  parse_create_table s =
    Ok (fold_left set_table (Re.finditer table_pattern s) []).
Proof. apply for_each_add_table, scan_complete. Qed.

Lemma parse_foreign_keys_map (s : string) :
  parse_foreign_keys s = Ok (map fk_of_match (Re.finditer fk_pattern s)).
Proof.
  unfold parse_foreign_keys.
  rewrite for_each_add_foreign_key by apply scan_complete. reflexivity.
Qed.

(** ** [dict] assignment *)

Section DictFacts.
Context {V : Type}.
Implicit Types (d : Dict.t V) (k : string) (v : V).

Lemma get_set_same k v : forall d, Dict.get (Dict.set k v d) k = Some v.
Proof.
  induction d as [|[k' v'] d IH]; simpl.
  - rewrite String.eqb_refl. reflexivity.
  - destruct (String.eqb k' k) eqn:E; simpl; rewrite E; auto.
Qed.

Lemma get_set_other k k' v :
  k <> k' -> forall d, Dict.get (Dict.set k v d) k' = Dict.get d k'.
Proof.
  intros Hne. induction d as [|[k0 v0] d IH]; simpl.
  - destruct (String.eqb k k') eqn:E; [|reflexivity].
    apply String.eqb_eq in E. contradiction.
  - destruct (String.eqb k0 k) eqn:E; simpl.
    + apply String.eqb_eq in E. subst k0.
      destruct (String.eqb k k') eqn:E'; [|reflexivity].
      apply String.eqb_eq in E'. contradiction.
    + rewrite IH. reflexivity.
Qed.

Lemma keys_set k v :
  forall d k', In k' (Dict.keys (Dict.set k v d)) <->
               k' = k \/ In k' (Dict.keys d).
Proof.
  induction d as [|[k0 v0] d IH]; intro k'; simpl.
  - intuition.
  - destruct (String.eqb k0 k) eqn:E; simpl.
    + apply String.eqb_eq in E. subst k0. intuition.
    + rewrite IH. intuition.
Qed.

Lemma NoDup_keys_set k v :
  forall d, NoDup (Dict.keys d) -> NoDup (Dict.keys (Dict.set k v d)).
Proof.
  induction d as [|[k0 v0] d IH]; simpl; intro H.
  - constructor; [intros [] | constructor].
  - destruct (String.eqb k0 k) eqn:E; simpl; [exact H|].
    inversion H as [|? ? Hnin Hnd]; subst. constructor; [|auto].
    rewrite keys_set. intros [->|Hin]; [|contradiction].
    rewrite String.eqb_refl in E. discriminate.
Qed.

Lemma get_some_key : forall d k v, Dict.get d k = Some v -> In k (Dict.keys d).
Proof.
  induction d as [|[k0 v0] d IH]; simpl; intros k v; [discriminate|].
  destruct (String.eqb k0 k) eqn:E.
  - apply String.eqb_eq in E. auto.
  - intro H. right. eapply IH, H.
Qed.
End DictFacts.

(** ** The table loop as a fold of assignments *)

Lemma fold_set_table_NoDup (ms : list Re.matched) :
  forall tables, NoDup (Dict.keys tables) ->
                 NoDup (Dict.keys (fold_left set_table ms tables)).
Proof.
  induction ms as [|m ms IH]; intros tables H; simpl; [exact H|].
  apply IH, NoDup_keys_set, H.
Qed.

Lemma fold_set_table_untouched (name : string) (ms : list Re.matched) :
  (forall m, In m ms -> Re.backref 1 m <> name) ->
  forall tables,
    Dict.get (fold_left set_table ms tables) name = Dict.get tables name.
Proof.
  induction ms as [|m ms IH]; intros H tables; simpl; [reflexivity|].
  rewrite IH by (intros; apply H; right; assumption).
  apply get_set_other, H. left; reflexivity.
Qed.


(** ** Totality, determinism and duplicates *)




(** C9: when several [CREATE TABLE] statements name the same table, the
    mapping binds the name once, to the fragments of the last of them. *)
Theorem last_definition_wins
    (s : string) (before after : list Re.matched) (m : Re.matched)
    (name text : string) :
  Re.finditer table_pattern s = before ++ m :: after ->
  Re.group m 1 = Ok name ->
  Re.group m 2 = Ok text ->
  (forall m', In m' after -> Re.group m' 1 <> Ok name) ->
  exists tables,
    parse_create_table s = Ok tables /\
    Dict.get tables name = Some (parse_columns text) /\
    count_occ string_dec (Dict.keys tables) name = 1.
Proof.
  intros Hs H1 H2 Hafter.
  eexists. split; [apply parse_create_table_fold|].
  pose proof (scan_complete table_pattern s 0) as Hall.
  fold (Re.finditer table_pattern s) in Hall. rewrite Hs in *.
  apply group_ok in H1 as [H1 _]. apply group_ok in H2 as [H2 _].
  assert (Hget : Dict.get (fold_left set_table (before ++ m :: after) [])
                          name = Some (parse_columns text)).
  { rewrite fold_left_app. simpl.
    rewrite fold_set_table_untouched.
    - unfold set_table at 1. rewrite H1, H2. apply get_set_same.
    - intros m' Hin Heq. apply (Hafter m' Hin).
      rewrite Forall_forall in Hall.
      rewrite group_bound; [congruence|].
      apply Hall; [apply in_or_app; right; right; exact Hin | reflexivity]. }
  split; [exact Hget|].
  apply NoDup_count_occ'.
  - apply fold_set_table_NoDup. constructor.
  - eapply get_some_key, Hget.
Qed.

Lemma last_definition_wins_witness :
  exists tables,
    parse_create_table users_twice_ddl = Ok tables /\
    Dict.get tables "users" = Some ["id bigint NOT NULL"; "email text"] /\
    count_occ string_dec (Dict.keys tables) "users" = 1.
Proof.
  eassert (H : exists tables, _ /\ _ /\ _).
  { eapply (last_definition_wins users_twice_ddl [_] [] _ "users" _).
    - lazy. reflexivity.
    - reflexivity.
    - reflexivity.
    - intros m' []. }
  destruct H as (tables & Hp & Hg & Hc).
  exists tables. split; [exact Hp|]. split; [|exact Hc].
  rewrite Hg. vm_compute. reflexivity.
Defined.

(** ** Running the matcher on a text given in pieces *)

Lemma append_assoc (a b c : string) : (a +++ b) +++ c = a +++ (b +++ c).
Proof. induction a as [|x a IH]; simpl; [|rewrite IH]; reflexivity. Qed.

Lemma length_append (a b : string) :
  String.length (a +++ b) = String.length a + String.length b.
Proof. induction a as [|x a IH]; simpl; [|rewrite IH]; reflexivity. Qed.

Lemma take_append (a b : string) : Re.take (String.length a) (a +++ b) = a.
Proof. induction a as [|x a IH]; simpl; [destruct b|rewrite IH]; reflexivity. Qed.

Lemma consumed_append (a b : string) : Re.consumed (a +++ b) b = a.
Proof.
  unfold Re.consumed. rewrite length_append.
  replace (String.length a + String.length b - String.length b)
    with (String.length a) by lia.
  apply take_append.
Qed.

Lemma lit_append (l s : string) : Re.lit l (l +++ s) = Some s.
Proof.
  induction l as [|x l IH]; simpl; [reflexivity|].
  rewrite Ascii.eqb_refl. exact IH.
Qed.

Lemma scan_skip (r : Re.regex) (a rest : string) :
  Re.scan r (String.length a) (a +++ rest) = Re.scan r 0 rest.
Proof. induction a as [|x a IH]; simpl; [reflexivity | exact IH]. Qed.

(** A match that takes the non-empty head [a] of the text is the first
    item, and the scan goes on behind it. *)
Lemma scan_match (r : Re.regex) (a rest rest' : string) (m : Re.matched) :
  Re.match_at r (a +++ rest) = Some (m, rest') ->
  Re.whole m = a ->
  Str.is_nonempty a = true ->
  Re.finditer r (a +++ rest) = m :: Re.finditer r rest.
Proof.
  intros Hm Hw Hne. destruct a as [|c a]; [discriminate|].
  unfold Re.finditer.
  change (String c a +++ rest) with (String c (a +++ rest)) in *.
  cbn [Re.scan]. rewrite Hm, Hw. cbn [String.length pred].
  rewrite scan_skip. reflexivity.
Qed.

Section RunPieces.
Context {A : Type}.
Implicit Types (K : string -> Re.caps -> option A) (g : Re.caps).

Lemma run_cat r1 r2 s g K :
  Re.run (Re.Cat r1 r2) s g K =
    Re.run r1 s g (fun s' g' => Re.run r2 s' g' K).
Proof. reflexivity. Qed.

Lemma run_lit_append l s g K : Re.run (Re.Lit l) (l +++ s) g K = K s g.
Proof. simpl. rewrite lit_append. reflexivity. Qed.

Lemma run_opt_taken r s g K x :
  Re.run r s g K = Some x -> Re.run (Re.Opt r) s g K = Some x.
Proof. intro H. simpl. rewrite H. reflexivity. Qed.

Lemma run_opt_skipped r s g K x :
  Re.run r s g K = None -> K s g = Some x ->
  Re.run (Re.Opt r) s g K = Some x.
Proof. intros H H'. simpl. rewrite H. exact H'. Qed.

(** A greedy repeat followed by a character it cannot take and a
    continuation that succeeds there takes all it can. *)
Lemma rep_greedy_whole (k : Re.cls) :
  forall a min rest (K' : string -> option A) x,
    all_chars (Re.test k) a = true ->
    min <= String.length a ->
    stops k rest = true ->
    K' rest = Some x ->
    Re.rep_greedy k min (a +++ rest) K' = Some x.
Proof.
  induction a as [|c a IH]; intros min rest K' x Hall Hmin Hstop HK.
  - simpl in Hmin. assert (min = 0) as -> by lia. simpl.
    destruct rest as [|d rest]; simpl; [exact HK|].
    simpl in Hstop. apply negb_true_iff in Hstop. rewrite Hstop. exact HK.
  - simpl in Hall. apply andb_true_iff in Hall as [Hc Hall].
    simpl. rewrite Hc.
    rewrite (IH (pred min) rest K' x); auto. simpl in Hmin. lia.
Qed.

Lemma run_group_greedy i min k a rest g K x :
  all_chars (Re.test k) a = true ->
  min <= String.length a ->
  stops k rest = true ->
  K rest ((i, a) :: g) = Some x ->
  Re.run (Re.Grp i (Re.Rep true min k)) (a +++ rest) g K = Some x.
Proof.
  intros Hall Hmin Hstop HK. cbn [Re.run].
  apply rep_greedy_whole; auto.
  rewrite consumed_append. exact HK.
Qed.
End RunPieces.

Lemma is_identifier_inv (s : string) :
  is_identifier s = true ->
  all_chars (Re.test Re.Word) s = true /\ 1 <= String.length s.
Proof.
  unfold is_identifier. intro H. apply andb_true_iff in H as [Hne Hall].
  split; [exact Hall|]. destruct s; [discriminate | simpl; lia].
Qed.

Lemma is_column_list_inv (s : string) :
  is_column_list s = true ->
  all_chars (Re.test (Re.Not rparen)) s = true /\ 1 <= String.length s.
Proof.
  unfold is_column_list. intro H. apply andb_true_iff in H as [Hne Hall].
  split; [exact Hall|]. destruct s; [discriminate | simpl; lia].
Qed.

(** The foreign-key pattern on a statement given by its parts. *)
Lemma fk_pattern_runs {A : Type} (only : bool) (st cn sc tt tc rest : string)
    (K : string -> Re.caps -> option A) (x : A) :
  is_identifier st = true ->
  is_identifier cn = true ->
  is_column_list sc = true ->
  is_identifier tt = true ->
  is_column_list tc = true ->
  K rest [(5, tc); (4, tt); (3, sc); (2, cn); (1, st)] = Some x ->
  Re.run fk_pattern
    ("ALTER TABLE " +++ (if only then "ONLY " else "") +++ "public." +++ st
     +++ " ADD CONSTRAINT " +++ cn +++ " FOREIGN KEY (" +++ sc
     +++ ") REFERENCES public." +++ tt +++ "(" +++ tc +++ ")" +++ rest)
    [] K = Some x.
Proof.
  intros Hst Hcn Hsc Htt Htc HK.
  apply is_identifier_inv in Hst as [Hst Hst'].
  apply is_identifier_inv in Hcn as [Hcn Hcn'].
  apply is_identifier_inv in Htt as [Htt Htt'].
  apply is_column_list_inv in Hsc as [Hsc Hsc'].
  apply is_column_list_inv in Htc as [Htc Htc'].
  unfold fk_pattern.
  rewrite run_cat, run_lit_append, run_cat.
  assert (Hrest : forall g,
    g = [] ->
    Re.run
      (Re.Cat (Re.Lit "public.")
      (Re.Cat (Re.Grp 1 (Re.Rep true 1 Re.Word))
      (Re.Cat (Re.Lit " ADD CONSTRAINT ")
      (Re.Cat (Re.Grp 2 (Re.Rep true 1 Re.Word))
      (Re.Cat (Re.Lit " FOREIGN KEY (")
      (Re.Cat (Re.Grp 3 (Re.Rep true 1 (Re.Not rparen)))
      (Re.Cat (Re.Lit ") REFERENCES public.")
      (Re.Cat (Re.Grp 4 (Re.Rep true 1 Re.Word))
      (Re.Cat (Re.Lit "(")
      (Re.Cat (Re.Grp 5 (Re.Rep true 1 (Re.Not rparen)))
              (Re.Lit ")")))))))))))
      ("public." +++ st +++ " ADD CONSTRAINT " +++ cn +++ " FOREIGN KEY ("
       +++ sc +++ ") REFERENCES public." +++ tt +++ "(" +++ tc +++ ")"
       +++ rest) g K = Some x).
  { intros g ->.
    rewrite run_cat, run_lit_append, run_cat.
    apply run_group_greedy; [exact Hst | exact Hst' | reflexivity |].
    rewrite run_cat, run_lit_append, run_cat.
    apply run_group_greedy; [exact Hcn | exact Hcn' | reflexivity |].
    rewrite run_cat, run_lit_append, run_cat.
    apply run_group_greedy; [exact Hsc | exact Hsc' | reflexivity |].
    rewrite run_cat, run_lit_append, run_cat.
    apply run_group_greedy; [exact Htt | exact Htt' | reflexivity |].
    rewrite run_cat, run_lit_append, run_cat.
    apply run_group_greedy; [exact Htc | exact Htc' | reflexivity |].
    rewrite run_lit_append. exact HK. }
  destruct only.
  - apply run_opt_taken. rewrite run_lit_append. apply Hrest. reflexivity.
  - apply run_opt_skipped; [reflexivity|]. apply Hrest. reflexivity.
Qed.

Lemma fk_statement_nonempty (only : bool) (st cn sc tt tc : string) :
  Str.is_nonempty (fk_statement only st cn sc tt tc) = true.
Proof. reflexivity. Qed.

Lemma fk_statement_match (only : bool) (st cn sc tt tc rest : string) :
  is_identifier st = true ->
  is_identifier cn = true ->
  is_column_list sc = true ->
  is_identifier tt = true ->
  is_column_list tc = true ->
  Re.match_at fk_pattern (fk_statement only st cn sc tt tc +++ rest) =
    Some ({| Re.whole := fk_statement only st cn sc tt tc;
             Re.groups := [(5, tc); (4, tt); (3, sc); (2, cn); (1, st)] |},
          rest).
Proof.
  intros Hst Hcn Hsc Htt Htc. unfold Re.match_at.
  rewrite <- (consumed_append (fk_statement only st cn sc tt tc) rest) at 2.
  generalize (fk_statement only st cn sc tt tc +++ rest) at 2 3 as whole_text.
  intro whole_text. unfold fk_statement. rewrite !append_assoc.
  apply fk_pattern_runs; auto.
Qed.

(** ** Composite keys *)

(** C7: a foreign-key statement yields one record whose [source_column]
    is the whole text between the parentheses of the [FOREIGN KEY] clause
    and whose [target_column] is the whole text between those of the
    [REFERENCES] clause, commas and blanks included, whatever follows the
    statement in the dump. *)
Theorem composite_key_unsplit
    (only : bool) (st cn sc tt tc rest : string) :
  is_identifier st = true ->
  is_identifier cn = true ->
  is_column_list sc = true ->
  is_identifier tt = true ->
  is_column_list tc = true ->
  exists fks,
    parse_foreign_keys rest = Ok fks /\
    parse_foreign_keys (fk_statement only st cn sc tt tc +++ rest) =
      Ok ({| source_table := st; source_column := sc; target_table := tt;
             target_column := tc; constraint_name := cn |} :: fks).
Proof.
  intros Hst Hcn Hsc Htt Htc.
  exists (map fk_of_match (Re.finditer fk_pattern rest)).
  split; [apply parse_foreign_keys_map|].
  rewrite parse_foreign_keys_map.
  erewrite scan_match;
    [ | apply fk_statement_match; assumption | reflexivity
      | apply fk_statement_nonempty ].
  reflexivity.
Qed.

Lemma composite_key_unsplit_witness :
  parse_foreign_keys
    "ALTER TABLE public.places_stories ADD CONSTRAINT fk_ps FOREIGN KEY (place_id, story_id) REFERENCES public.links(p_id, s_id);" =
  Ok [{| source_table := "places_stories";
         source_column := "place_id, story_id";
         target_table := "links"; target_column := "p_id, s_id";
         constraint_name := "fk_ps" |}].
Proof.
  destruct (composite_key_unsplit false "places_stories" "fk_ps"
              "place_id, story_id" "links" "p_id, s_id" ";"
              eq_refl eq_refl eq_refl eq_refl eq_refl)
    as (fks & Hrest & Hall).
  vm_compute in Hrest. injection Hrest as <-. exact Hall.
Defined.

(** ** The preview line of a column *)

Lemma lstrip_nonblank (c : ascii) (s : string) :
  Str.is_space c = false ->
  Str.lstrip_by Str.is_space (String c s) = String c s.
Proof. intro H. simpl. rewrite H. reflexivity. Qed.

(** [split()] starts with the first token, when there is one. *)
Lemma split_first_token :
  forall s,
    hd_error (Str.split s) =
      if Str.is_nonempty (first_token s) then Some (first_token s) else None.
Proof.
  unfold first_token.
  induction s as [|c s IH]; [reflexivity|].
  cbn [Str.split Str.lstrip_by].
  destruct (Str.is_space c) eqn:Ec; [exact IH|].
  cbn [take_nonblank]. rewrite Ec. cbn [Str.is_nonempty].
  destruct s as [|c' s']; [reflexivity|].
  destruct (Str.is_space c') eqn:Ec'.
  - cbn [take_nonblank]. rewrite Ec'. reflexivity.
  - rewrite (lstrip_nonblank c' s' Ec') in IH.
    cbn [take_nonblank] in IH. rewrite Ec' in IH. cbn [Str.is_nonempty] in IH.
    destruct (Str.split (String c' s')) as [|h t]; [discriminate IH|].
    injection IH as ->. cbn [take_nonblank hd_error]. rewrite Ec'.
    reflexivity.
Qed.



(** A fragment without a token prints nothing: [col.split()[0]] raises. *)
Lemma preview_field_raises (col : string) :
  Str.is_nonempty (first_token col) = false ->
  ts_field col = Raise IndexError.
Proof.
  intro He. unfold ts_field, col_name.
  pose proof (split_first_token col) as H. rewrite He in H.
  destruct (Str.split col); [reflexivity | discriminate H].
Qed.


(** * Further properties of the extractors *)

(** ** What a match and its groups hold *)

Lemma lit_inv : forall l s s', Re.lit l s = Some s' -> s = l +++ s'.
Proof.
  induction l as [|a l IH]; intros s s' H; simpl in H.
  - injection H as ->. reflexivity.
  - destruct s as [|b s]; [discriminate|].
    destruct (Ascii.eqb a b) eqn:E; [|discriminate].
    apply Ascii.eqb_eq in E. subst b. simpl. f_equal. apply IH, H.
Qed.


Section RunSound.
Context {A : Type}.

Lemma rep_greedy_sound (k : Re.cls) :
  forall s min (K : string -> option A) x,
    Re.rep_greedy k min s K = Some x ->
    exists a s',
      s = a +++ s' /\ all_chars (Re.test k) a = true /\
      min <= String.length a /\ K s' = Some x.
Proof.
  induction s as [|c s IH]; intros min K x H; simpl in H.
  - destruct min; [|discriminate]. exists "", "". auto.
  - assert (Hstop : match min with 0 => K (String c s) | S _ => None end
                    = Some x ->
                    exists a s', String c s = a +++ s' /\
                      all_chars (Re.test k) a = true /\
                      min <= String.length a /\ K s' = Some x).
    { destruct min; [|discriminate]. intro HK.
      exists "", (String c s). auto. }
    destruct (Re.test k c) eqn:Ec; [|auto].
    destruct (Re.rep_greedy k (pred min) s K) eqn:E; [|auto].
    injection H as ->. apply IH in E as (a & s' & -> & Ha & Hm & HK).
    exists (String c a), s'. simpl. rewrite Ec, Ha.
    repeat split; auto. lia.
Qed.

(** A lazy repeat stops at the first place where the continuation
    succeeds. *)
Lemma rep_lazy_sound (k : Re.cls) :
  forall s min (K : string -> option A) x,
    Re.rep_lazy k min s K = Some x ->
    exists a s',
      s = a +++ s' /\ all_chars (Re.test k) a = true /\
      min <= String.length a /\ K s' = Some x /\
      (min = 0 ->
       forall a1 a2, a = a1 +++ a2 -> a2 <> "" -> K (a2 +++ s') = None).
Proof.
  induction s as [|c s IH]; intros min K x H; simpl in H.
  - destruct min; [|discriminate].
    destruct (K "") eqn:E; [|discriminate]. injection H as ->.
    exists "", "". repeat split; auto.
    intros _ a1 a2 Ha Hne. destruct a1; destruct a2; simpl in Ha;
      congruence.
  - assert (Hmore :
      (if Re.test k c then Re.rep_lazy k (pred min) s K else None) = Some x ->
      (min = 0 -> K (String c s) = None) ->
      exists a s', String c s = a +++ s' /\
        all_chars (Re.test k) a = true /\ min <= String.length a /\
        K s' = Some x /\
        (min = 0 ->
         forall a1 a2, a = a1 +++ a2 -> a2 <> "" -> K (a2 +++ s') = None)).
    { intros Hm Hfail. destruct (Re.test k c) eqn:Ec; [|discriminate].
      apply IH in Hm as (a & s' & -> & Ha & Hmin & HK & Hfirst).
      exists (String c a), s'. simpl. rewrite Ec, Ha.
      repeat split; auto; [lia|].
      intros -> a1 a2 Heq Hne.
      destruct a1 as [|d a1]; simpl in Heq.
      - subst a2. apply Hfail. reflexivity.
      - injection Heq as _ Heq. eapply Hfirst; eauto. }
    destruct min.
    + destruct (K (String c s)) eqn:E.
      * injection H as ->. exists "", (String c s). repeat split; auto.
        intros _ a1 a2 Ha Hne. destruct a1; destruct a2; simpl in Ha;
          congruence.
      * apply Hmore; auto.
    + apply Hmore; [exact H | discriminate].
Qed.

End RunSound.


(** What holds of every match found at a position holds of every item of
    the scan. *)
Lemma scan_Forall (Q : Re.matched -> Prop) (r : Re.regex) :
  (forall s m rest, Re.match_at r s = Some (m, rest) -> Q m) ->
  forall s skip, Forall Q (Re.scan r skip s).
Proof.
  intro HQ. induction s as [|c s IH]; intros [|n]; simpl; auto.
  - destruct (Re.match_at r "") as [[m rest]|] eqn:E; eauto.
  - destruct (Re.match_at r (String c s)) as [[m rest]|] eqn:E; eauto.
Qed.






(** ** Shape of the results *)



(** ** The column block of a table *)

Lemma prefix_inv : forall p s, String.prefix p s = true -> exists t, s = p +++ t.
Proof.
  induction p as [|a p IH]; intros s H.
  - exists s. reflexivity.
  - destruct s as [|b s]; [discriminate|]. simpl in H.
    destruct (ascii_dec a b) as [->|]; [|discriminate].
    apply IH in H as (t & ->). exists t. reflexivity.
Qed.

Lemma contains_suffix (p : string) :
  forall a b, Str.contains p (a +++ b) = false -> Str.contains p b = false.
Proof.
  induction a as [|c a IH]; intros b H; [exact H|].
  simpl in H. apply orb_false_iff in H as [_ H]. apply IH, H.
Qed.

(** No place inside [a] where [p] would match: [p] does not occur in [a]. *)
Lemma no_early_match (p s' : string) :
  forall a,
    (forall b1 b2, a = b1 +++ b2 -> b2 <> "" -> Re.lit p (b2 +++ s') = None) ->
    Str.is_nonempty p = true ->
    Str.contains p a = false.
Proof.
  intros a H Hp. induction a as [|c a IH].
  - destruct p; [discriminate | reflexivity].
  - cbn [Str.contains]. apply orb_false_iff. split.
    + destruct (String.prefix p (String c a)) eqn:E; [|reflexivity].
      apply prefix_inv in E as (t & E).
      assert (Hne : String c a <> "") by discriminate.
      specialize (H "" (String c a) eq_refl Hne). rewrite E in H.
      rewrite append_assoc, lit_append in H. discriminate H.
    + apply IH. intros b1 b2 -> Hne. apply (H (String c b1) b2); auto.
Qed.

Section RunInversion.
Context {A : Type}.
Implicit Types (K : string -> Re.caps -> option A) (g : Re.caps).

Lemma run_lit_inv l s g K x :
  Re.run (Re.Lit l) s g K = Some x ->
  exists s', s = l +++ s' /\ K s' g = Some x.
Proof.
  simpl. destruct (Re.lit l s) as [s'|] eqn:E; [|discriminate].
  apply lit_inv in E. eauto.
Qed.

Lemma run_group_greedy_inv i min k s g K x :
  Re.run (Re.Grp i (Re.Rep true min k)) s g K = Some x ->
  exists a s', s = a +++ s' /\ K s' ((i, a) :: g) = Some x.
Proof.
  cbn [Re.run]. intro H.
  apply rep_greedy_sound in H as (a & s' & -> & _ & _ & H).
  rewrite consumed_append in H. eauto.
Qed.

Lemma run_group_lazy_inv i k s g K x :
  Re.run (Re.Grp i (Re.Rep false 0 k)) s g K = Some x ->
  exists a s',
    s = a +++ s' /\ K s' ((i, a) :: g) = Some x /\
    forall b1 b2, a = b1 +++ b2 -> b2 <> "" ->
                  K (b2 +++ s') ((i, b1) :: g) = None.
Proof.
  cbn [Re.run]. intro H.
  apply rep_lazy_sound in H as (a & s' & -> & _ & _ & H & Hfirst).
  rewrite consumed_append in H. exists a, s'. repeat split; auto.
  intros b1 b2 -> Hne.
  specialize (Hfirst eq_refl b1 b2 eq_refl Hne). cbv beta in Hfirst.
  rewrite append_assoc, consumed_append in Hfirst. exact Hfirst.
Qed.

Lemma rep_lazy_whole (k : Re.cls) :
  forall a rest (K' : string -> option A) x,
    all_chars (Re.test k) a = true ->
    (forall b1 b2, a = b1 +++ b2 -> b2 <> "" -> K' (b2 +++ rest) = None) ->
    K' rest = Some x ->
    Re.rep_lazy k 0 (a +++ rest) K' = Some x.
Proof.
  induction a as [|c a IH]; intros rest K' x Hall Hnone HK.
  - destruct rest; simpl; rewrite HK; reflexivity.
  - simpl in Hall. apply andb_true_iff in Hall as [Hc Hall].
    change (String c a +++ rest) with (String c (a +++ rest)).
    cbn [Re.rep_lazy].
    change (String c (a +++ rest)) with (String c a +++ rest).
    rewrite (Hnone "" (String c a) eq_refl) by discriminate.
    rewrite Hc. cbn [pred]. apply IH; auto.
    intros b1 b2 -> Hne. apply (Hnone (String c b1) b2); auto.
Qed.

Lemma run_group_lazy i k a rest g K x :
  all_chars (Re.test k) a = true ->
  (forall b1 b2, a = b1 +++ b2 -> b2 <> "" ->
                 forall g', K (b2 +++ rest) g' = None) ->
  K rest ((i, a) :: g) = Some x ->
  Re.run (Re.Grp i (Re.Rep false 0 k)) (a +++ rest) g K = Some x.
Proof.
  intros Hall Hnone HK. cbn [Re.run].
  apply rep_lazy_whole.
  - exact Hall.
  - intros b1 b2 Hb Hne. apply (Hnone b1 b2 Hb Hne).
  - cbv beta. rewrite consumed_append. exact HK.
Qed.
End RunInversion.

(** The column text of a match stops at the first [);] behind the opening
    parenthesis: it never holds one. *)
Theorem column_block_ends_at_first_close (s : string) :
  Forall (fun m => Str.contains ");" (Re.backref 2 m) = false)
         (Re.finditer table_pattern s).
Proof.
  apply scan_Forall. intros s0 m rest H.
  unfold Re.match_at, table_pattern in H.
  rewrite run_cat in H. apply run_lit_inv in H as (s1 & _ & H).
  rewrite run_cat in H. apply run_group_greedy_inv in H as (a1 & s2 & _ & H).
  rewrite run_cat in H. apply run_lit_inv in H as (s3 & _ & H).
  rewrite run_cat in H.
  apply run_group_lazy_inv in H as (a2 & s4 & _ & H & Hfirst).
  apply run_lit_inv in H as (s5 & _ & H). injection H as <- _.
  unfold Re.backref. simpl.
  apply (no_early_match ");" s4); [|reflexivity].
  intros b1 b2 Hb Hne. specialize (Hfirst b1 b2 Hb Hne).
  cbn [Re.run] in Hfirst.
  destruct (Re.lit ");" (b2 +++ s4)); [discriminate Hfirst | reflexivity].
Qed.

Lemma body_suffix_no_close (b rest : string) :
  Str.contains ");" b = false -> b <> "" ->
  Re.lit ");" (b +++ ");" +++ rest) = None.
Proof.
  intros Hc Hne. destruct b as [|c b]; [contradiction|].
  cbn [String.append Re.lit].
  destruct (Ascii.eqb ")" c) eqn:Ec; [|reflexivity].
  apply Ascii.eqb_eq in Ec. subst c.
  destruct b as [|d b]; [reflexivity|].
  cbn [String.append Re.lit].
  destruct (Ascii.eqb ";" d) eqn:Ed; [|reflexivity].
  apply Ascii.eqb_eq in Ed. subst d.
  cbn in Hc. destruct b; cbn in Hc; discriminate Hc.
Qed.

(** The table pattern on a definition given by its parts. *)
Lemma table_pattern_runs {A : Type} (name body rest : string)
    (K : string -> Re.caps -> option A) (x : A) :
  is_identifier name = true ->
  Str.contains ");" body = false ->
  K rest [(2, body); (1, name)] = Some x ->
  Re.run table_pattern
    (create_table_head +++ name +++ String dquote " (" +++ body +++ ");"
     +++ rest) [] K = Some x.
Proof.
  intros Hn Hb HK. apply is_identifier_inv in Hn as [Hn Hn'].
  unfold table_pattern.
  rewrite run_cat, run_lit_append, run_cat.
  apply run_group_greedy; [exact Hn | exact Hn' | reflexivity |].
  rewrite run_cat, run_lit_append, run_cat.
  apply run_group_lazy.
  - clear. induction body as [|c body IH]; [reflexivity | exact IH].
  - intros b1 b2 -> Hne g'. cbn [Re.run].
    rewrite body_suffix_no_close; auto.
    eapply contains_suffix, Hb.
  - rewrite run_lit_append. exact HK.
Qed.

Lemma table_statement_match (name body rest : string) :
  is_identifier name = true ->
  Str.contains ");" body = false ->
  Re.match_at table_pattern (table_statement name body +++ rest) =
    Some ({| Re.whole := table_statement name body;
             Re.groups := [(2, body); (1, name)] |}, rest).
Proof.
  intros Hn Hb. unfold Re.match_at.
  remember (fun rest' g =>
              Some ({| Re.whole :=
                         Re.consumed (table_statement name body +++ rest) rest';
                       Re.groups := g |}, rest')) as Kf eqn:HK.
  unfold table_statement. rewrite !append_assoc.
  apply table_pattern_runs; auto.
  subst Kf. rewrite consumed_append. reflexivity.
Qed.

Lemma fold_set_table_under (n : string) (ms : list Re.matched) :
  forall tables,
    Dict.get (fold_left set_table ms tables) n =
      match Dict.get (fold_left set_table ms []) n with
      | Some c => Some c
      | None => Dict.get tables n
      end.
Proof.
  induction ms as [|m ms IH]; intro tables; simpl; [reflexivity|].
  rewrite (IH (set_table tables m)), (IH (set_table [] m)).
  destruct (Dict.get (fold_left set_table ms []) n); [reflexivity|].
  unfold set_table.
  destruct (string_dec (Re.backref 1 m) n) as [<-|Hne].
  - rewrite !get_set_same. reflexivity.
  - rewrite !get_set_other by assumption. reflexivity.
Qed.

(** A table definition at the head of the text, with a name of word
    characters and no [);] inside its parentheses, is bound to the
    fragments of exactly that block, unless a later definition of the same
    name replaces it; every other name is bound as in the rest of the
    text. *)
Theorem table_statement_extracted (name body rest : string) :
  is_identifier name = true ->
  Str.contains ");" body = false ->
  exists later tables,
    parse_create_table rest = Ok later /\
    parse_create_table (table_statement name body +++ rest) = Ok tables /\
    forall n, Dict.get tables n = get_under later name (parse_columns body) n.
Proof.
  intros Hn Hb. do 2 eexists.
  split; [apply parse_create_table_fold|].
  split; [apply parse_create_table_fold|].
  intro n.
  erewrite scan_match;
    [ | apply table_statement_match; assumption | reflexivity | reflexivity ].
  simpl fold_left. rewrite fold_set_table_under. unfold get_under.
  destruct (Dict.get (fold_left set_table
                        (Re.finditer table_pattern rest) []) n);
    reflexivity.
Qed.

Lemma table_statement_extracted_witness :
  exists tables,
    parse_create_table
      (table_statement "places"
         (nl +++ "    " +++ quoted "id" +++ " bigint NOT NULL," +++ nl
          +++ "    " +++ quoted "name" +++ " text" +++ nl)
       +++ nl +++ "-- end of dump") = Ok tables /\
    Dict.get tables "places" = Some ["id bigint NOT NULL"; "name text"].
Proof.
  destruct (table_statement_extracted "places"
              (nl +++ "    " +++ quoted "id" +++ " bigint NOT NULL," +++ nl
               +++ "    " +++ quoted "name" +++ " text" +++ nl)
              (nl +++ "-- end of dump") eq_refl eq_refl)
    as (later & tables & Hl & Ht & Hg).
  exists tables. split; [exact Ht|].
  rewrite Hg. vm_compute in Hl. injection Hl as <-. reflexivity.
Defined.

(** ** Quote removal *)

Lemma drop_quotes_0 : forall s, drop_quotes 0 s = s.
Proof.
  induction s as [|c s IH]; simpl; [reflexivity|].
  destruct (is_dquote c); [reflexivity | rewrite IH; reflexivity].
Qed.

Lemma not_dquote_test (c : ascii) :
  Re.test (Re.Not dquote) c = negb (is_dquote c).
Proof. reflexivity. Qed.

Lemma drop_quotes_app (n : nat) :
  forall a b,
    all_chars (Re.test (Re.Not dquote)) a = true ->
    drop_quotes n (a +++ b) = a +++ drop_quotes n b.
Proof.
  induction a as [|c a IH]; intros b H; [reflexivity|].
  cbn [all_chars] in H. apply andb_true_iff in H as [Hc H].
  rewrite not_dquote_test in Hc. apply negb_true_iff in Hc.
  cbn [String.append drop_quotes]. rewrite Hc, IH by assumption.
  reflexivity.
Qed.

Lemma count_quotes_app :
  forall a b, count_quotes (a +++ b) = count_quotes a + count_quotes b.
Proof.
  induction a as [|c a IH]; intro b; simpl; [reflexivity|].
  rewrite IH. lia.
Qed.

Lemma count_quotes_free :
  forall a, all_chars (Re.test (Re.Not dquote)) a = true -> count_quotes a = 0.
Proof.
  induction a as [|c a IH]; intro H; [reflexivity|].
  cbn [all_chars] in H. apply andb_true_iff in H as [Hc H].
  rewrite not_dquote_test in Hc. apply negb_true_iff in Hc.
  cbn [count_quotes]. rewrite Hc, IH by assumption. reflexivity.
Qed.

(** A text is free of double quotes or has a first one. *)
Lemma first_quote :
  forall s,
    all_chars (Re.test (Re.Not dquote)) s = true \/
    exists a b, s = a +++ String dquote b /\
                all_chars (Re.test (Re.Not dquote)) a = true.
Proof.
  induction s as [|c s IH]; [left; reflexivity|].
  destruct (is_dquote c) eqn:Ec.
  - right. exists "", s. apply Ascii.eqb_eq in Ec. subst c. auto.
  - destruct IH as [IH | (a & b & -> & Ha)].
    + left. cbn [all_chars]. rewrite not_dquote_test, Ec. exact IH.
    + right. exists (String c a), b. split; [reflexivity|].
      cbn [all_chars]. rewrite not_dquote_test, Ec. exact Ha.
Qed.

Lemma all_chars_app (p : ascii -> bool) :
  forall a b, all_chars p (a +++ b) = all_chars p a && all_chars p b.
Proof.
  induction a as [|c a IH]; intro b; simpl; [reflexivity|].
  rewrite IH, andb_assoc. reflexivity.
Qed.

Lemma rep_greedy_none {A : Type} (k : Re.cls) :
  forall s min (K : string -> option A),
    (forall a1 a2, s = a1 +++ a2 -> K a2 = None) ->
    Re.rep_greedy k min s K = None.
Proof.
  induction s as [|c s IH]; intros min K H; simpl.
  - destruct min; [apply (H "" ""); reflexivity | reflexivity].
  - assert (Hstop : match min with 0 => K (String c s) | S _ => None end
                    = None).
    { destruct min; [apply (H ""); reflexivity | reflexivity]. }
    destruct (Re.test k c); [|exact Hstop].
    rewrite IH; [exact Hstop|].
    intros a1 a2 ->. apply (H (String c a1)). reflexivity.
Qed.

Lemma sub_scan_skip (r : Re.regex) (repl : Re.matched -> string)
    (a rest : string) :
  Re.sub_scan r repl (String.length a) (a +++ rest) = Re.sub_scan r repl 0 rest.
Proof. induction a as [|x a IH]; simpl; [reflexivity | exact IH]. Qed.

Lemma match_at_quoted_other (c : ascii) (s : string) :
  is_dquote c = false -> Re.match_at quoted_pattern (String c s) = None.
Proof.
  intro H. unfold Re.match_at, quoted_pattern. cbn [Re.run Re.lit].
  unfold is_dquote in H. rewrite Ascii.eqb_sym, H. reflexivity.
Qed.

Lemma match_at_quoted_open (s : string) :
  all_chars (Re.test (Re.Not dquote)) s = true ->
  Re.match_at quoted_pattern (String dquote s) = None.
Proof.
  intro H. unfold Re.match_at, quoted_pattern.
  rewrite run_cat.
  change (String dquote s) with (String dquote "" +++ s) at 1.
  rewrite run_lit_append, run_cat. cbn [Re.run].
  apply rep_greedy_none. intros a1 a2 ->.
  rewrite all_chars_app in H. apply andb_true_iff in H as [_ H].
  destruct a2 as [|d a2]; [reflexivity|].
  cbn [all_chars] in H. apply andb_true_iff in H as [Hd _].
  rewrite not_dquote_test in Hd. apply negb_true_iff in Hd.
  unfold is_dquote in Hd. cbn [Re.lit].
  rewrite Ascii.eqb_sym, Hd. reflexivity.
Qed.

Lemma match_at_quoted_pair (a b : string) :
  all_chars (Re.test (Re.Not dquote)) a = true ->
  Re.match_at quoted_pattern (String dquote (a +++ String dquote b)) =
    Some ({| Re.whole := String dquote (a +++ String dquote "");
             Re.groups := [(1, a)] |}, b).
Proof.
  intro H. unfold Re.match_at.
  remember (fun rest' g =>
              Some ({| Re.whole :=
                         Re.consumed (String dquote (a +++ String dquote b))
                                     rest';
                       Re.groups := g |}, rest')) as Kf eqn:HK.
  unfold quoted_pattern. rewrite run_cat.
  change (String dquote (a +++ String dquote b))
    with (String dquote "" +++ a +++ String dquote "" +++ b).
  rewrite run_lit_append, run_cat.
  apply run_group_greedy;
    [exact H | apply Nat.le_0_l
     | cbn [stops String.append]; rewrite not_dquote_test;
       unfold is_dquote; rewrite Ascii.eqb_refl; reflexivity |].
  rewrite run_lit_append. subst Kf. f_equal. f_equal. f_equal.
  change (String dquote (a +++ String dquote b))
    with (String dquote (a +++ String dquote "" +++ b)).
  rewrite <- (append_assoc a (String dquote "") b).
  change (String dquote ((a +++ String dquote "") +++ b))
    with (String dquote (a +++ String dquote "") +++ b).
  apply consumed_append.
Qed.

Lemma sub_quoted_bounded :
  forall n s,
    String.length s <= n ->
    Re.sub quoted_pattern (Re.backref 1) s =
      drop_quotes (2 * Nat.div2 (count_quotes s)) s.
Proof.
  unfold Re.sub.
  induction n as [|n IH]; intros s Hlen.
  - destruct s; [reflexivity | simpl in Hlen; lia].
  - destruct s as [|c s]; [reflexivity|].
    simpl in Hlen. assert (Hs : String.length s <= n) by lia.
    destruct (is_dquote c) eqn:Ec.
    + pose proof Ec as Ec'. apply Ascii.eqb_eq in Ec'. subst c.
      destruct (first_quote s) as [Hfree | (a & b & -> & Ha)].
      * cbn [Re.sub_scan]. rewrite match_at_quoted_open by assumption.
        rewrite IH by assumption.
        cbn [count_quotes]. rewrite Ec.
        rewrite (count_quotes_free s Hfree). cbn [Nat.div2 Nat.mul Nat.add].
        rewrite !drop_quotes_0. reflexivity.
      * cbn [Re.sub_scan]. rewrite match_at_quoted_pair by assumption.
        cbn [Re.whole String.length].
        assert (Hskip :
          Re.sub_scan quoted_pattern (Re.backref 1)
            (String.length (a +++ String dquote "")) (a +++ String dquote b) =
          Re.sub_scan quoted_pattern (Re.backref 1) 0 b).
        { change (a +++ String dquote b) with (a +++ String dquote "" +++ b).
          rewrite <- append_assoc. apply sub_scan_skip. }
        rewrite Hskip, IH.
        2:{ rewrite length_append in Hs. simpl in Hs. lia. }
        unfold Re.backref. cbn [Re.groups Re.lookup Nat.eqb].
        cbn [count_quotes]. rewrite Ec, count_quotes_app.
        cbn [String.append count_quotes]. rewrite Ec.
        rewrite (count_quotes_free a Ha).
        replace (1 + (0 + (1 + count_quotes b)))
          with (S (S (count_quotes b))) by lia.
        cbn [Nat.div2].
        replace (2 * S (Nat.div2 (count_quotes b)))
          with (S (S (2 * Nat.div2 (count_quotes b)))) by lia.
        cbn [drop_quotes]. rewrite Ec.
        rewrite drop_quotes_app by assumption.
        cbn [drop_quotes]. rewrite Ec. reflexivity.
    + cbn [Re.sub_scan]. rewrite match_at_quoted_other by assumption.
      rewrite IH by assumption.
      cbn [count_quotes drop_quotes]. rewrite Ec. reflexivity.
Qed.

(** [re.sub] with the quote pattern removes the double quotes of a line
    in pairs from the left: all of them when their number is even, all but
    the last when it is odd; every other character stays in place. *)
Theorem quotes_removed_in_pairs (s : string) :
  Re.sub quoted_pattern (Re.backref 1) s =
    drop_quotes (2 * Nat.div2 (count_quotes s)) s.
Proof. apply (sub_quoted_bounded (String.length s)). apply Nat.le_refl. Qed.

(** ** Column fragments *)

Lemma lstrip_head (p : ascii -> bool) :
  forall s,
    Str.lstrip_by p s = "" \/
    exists c t, Str.lstrip_by p s = String c t /\ p c = false.
Proof.
  induction s as [|c s IH]; [left; reflexivity|].
  simpl. destruct (p c) eqn:E; [exact IH | right; eauto].
Qed.

Lemma rstrip_rstrip (p : ascii -> bool) :
  forall s, Str.rstrip_by p (Str.rstrip_by p s) = Str.rstrip_by p s.
Proof.
  induction s as [|c s IH]; [reflexivity|].
  cbn [Str.rstrip_by].
  destruct (Str.rstrip_by p s) as [|d u] eqn:E.
  - destruct (p c) eqn:Ec; [reflexivity|].
    cbn [Str.rstrip_by]. rewrite Ec. reflexivity.
  - cbn [Str.rstrip_by] in *. rewrite IH. reflexivity.
Qed.

Lemma rstrip_keeps_head (p : ascii -> bool) (c : ascii) (t : string) :
  p c = false -> exists u, Str.rstrip_by p (String c t) = String c u.
Proof.
  intro Hc. cbn [Str.rstrip_by].
  destruct (Str.rstrip_by p t); [rewrite Hc|]; eauto.
Qed.

(** [strip] leaves nothing more to strip. *)
Lemma strip_strip (s : string) : Str.strip (Str.strip s) = Str.strip s.
Proof.
  unfold Str.strip.
  destruct (lstrip_head Str.is_space s) as [E | (c & t & E & Hc)]; rewrite E.
  - reflexivity.
  - destruct (rstrip_keeps_head Str.is_space c t Hc) as (u & Eu).
    rewrite Eu. cbn [Str.lstrip_by]. rewrite Hc, <- Eu.
    apply rstrip_rstrip.
Qed.

Section KeptCharacters.
Variable p : ascii -> bool.

Lemma all_chars_lstrip (q : ascii -> bool) :
  forall s, all_chars p s = true -> all_chars p (Str.lstrip_by q s) = true.
Proof.
  induction s as [|c s IH]; intro H; [reflexivity|].
  simpl. destruct (q c); [|exact H].
  simpl in H. apply andb_true_iff in H as [_ H]. auto.
Qed.

Lemma all_chars_rstrip (q : ascii -> bool) :
  forall s, all_chars p s = true -> all_chars p (Str.rstrip_by q s) = true.
Proof.
  induction s as [|c s IH]; intro H; [reflexivity|].
  simpl in H. apply andb_true_iff in H as [Hc H].
  cbn [Str.rstrip_by]. specialize (IH H).
  destruct (Str.rstrip_by q s) as [|d u].
  - destruct (q c); [reflexivity | simpl; rewrite Hc; reflexivity].
  - cbn [all_chars] in *. rewrite Hc. exact IH.
Qed.

Lemma all_chars_drop_quotes :
  forall s n, all_chars p s = true -> all_chars p (drop_quotes n s) = true.
Proof.
  induction s as [|c s IH]; intros n H; [reflexivity|].
  pose proof H as H0.
  simpl in H. apply andb_true_iff in H as [Hc H].
  cbn [drop_quotes]. destruct (is_dquote c).
  - destruct n; [exact H0 | apply IH, H].
  - cbn [all_chars]. rewrite Hc. apply IH, H.
Qed.
End KeptCharacters.

Lemma count_quotes_lstrip (q : ascii -> bool) :
  forall s, count_quotes (Str.lstrip_by q s) <= count_quotes s.
Proof.
  induction s as [|c s IH]; [reflexivity|].
  simpl. destruct (q c); [lia | simpl; lia].
Qed.

Lemma count_quotes_rstrip (q : ascii -> bool) :
  forall s, count_quotes (Str.rstrip_by q s) <= count_quotes s.
Proof.
  induction s as [|c s IH]; [reflexivity|].
  cbn [Str.rstrip_by].
  destruct (Str.rstrip_by q s) as [|d u].
  - destruct (q c); simpl in *; lia.
  - cbn [count_quotes] in *. lia.
Qed.

Lemma count_quotes_drop :
  forall s n, count_quotes (drop_quotes n s) = count_quotes s - n.
Proof.
  induction s as [|c s IH]; intro n; [reflexivity|].
  cbn [drop_quotes count_quotes]. destruct (is_dquote c) eqn:E.
  - destruct n; [cbn [count_quotes]; rewrite E; lia | rewrite IH; lia].
  - cbn [count_quotes]. rewrite E, IH. lia.
Qed.

Lemma split_on_pieces (sep : ascii) :
  forall s,
    Forall (fun piece =>
              all_chars (fun c => negb (Ascii.eqb c sep)) piece = true)
           (Str.split_on sep s).
Proof.
  induction s as [|c s IH]; [repeat constructor|].
  cbn [Str.split_on]. destruct (Ascii.eqb c sep) eqn:E.
  - constructor; [reflexivity | exact IH].
  - destruct (Str.split_on sep s) as [|h t].
    + constructor; [|constructor]. simpl. rewrite E. reflexivity.
    + inversion IH as [|? ? Hh Ht]; subst.
      constructor; [|exact Ht]. simpl. rewrite E. exact Hh.
Qed.

Lemma fragment_of_line (line : string) :
  no_newline line = true ->
  fragment_ok
    (Str.strip (Re.sub quoted_pattern (Re.backref 1)
                  (Str.rstrip_comma (Str.strip line)))).
Proof.
  intro H. rewrite quotes_removed_in_pairs.
  set (l := Str.rstrip_comma (Str.strip line)).
  split; [apply strip_strip|]. split.
  - unfold no_newline, Str.strip in *.
    apply all_chars_rstrip, all_chars_lstrip, all_chars_drop_quotes.
    unfold l, Str.rstrip_comma, Str.strip.
    apply all_chars_rstrip, all_chars_rstrip, all_chars_lstrip, H.
  - unfold Str.strip.
    eapply Nat.le_trans; [apply count_quotes_rstrip|].
    eapply Nat.le_trans; [apply count_quotes_lstrip|].
    rewrite count_quotes_drop.
    pose proof (Nat.div2_odd (count_quotes l)) as Hq.
    destruct (Nat.odd (count_quotes l)); simpl Nat.b2n in Hq; lia.
Qed.

Lemma fold_add_column (lines : list string) :
  Forall (fun line => no_newline line = true) lines ->
  forall columns,
    Forall fragment_ok columns ->
    Forall fragment_ok (fold_left add_column lines columns).
Proof.
  induction 1 as [|line lines Hl _ IH]; intros columns Hc; [exact Hc|].
  simpl. apply IH. unfold add_column.
  destruct (Str.is_nonempty (Str.rstrip_comma (Str.strip line))
            && negb (Str.startswith "--"
                       (Str.rstrip_comma (Str.strip line)))); [|exact Hc].
  apply Forall_app. split; [exact Hc|].
  constructor; [apply fragment_of_line, Hl | constructor].
Qed.

Lemma parse_columns_ok (text : string) : Forall fragment_ok (parse_columns text).
Proof.
  unfold parse_columns. apply fold_add_column; [|constructor].
  apply split_on_pieces.
Qed.

Lemma set_values {V : Type} (Q : V -> Prop) (k : string) (v : V) :
  Q v ->
  forall d : Dict.t V, Forall Q (map snd d) -> Forall Q (map snd (Dict.set k v d)).
Proof.
  intros Hv. induction d as [|[k0 v0] d IH]; simpl; intro H.
  - constructor; [exact Hv | constructor].
  - inversion H as [|? ? H0 Hd]; subst.
    destruct (String.eqb k0 k); simpl; constructor; auto.
Qed.

Lemma fold_set_table_values (Q : list string -> Prop) :
  (forall text, Q (parse_columns text)) ->
  forall ms tables,
    Forall Q (map snd tables) ->
    Forall Q (map snd (fold_left set_table ms tables)).
Proof.
  intro HQ. induction ms as [|m ms IH]; intros tables H; simpl; [exact H|].
  apply IH. unfold set_table. apply set_values; auto.
Qed.

(** Every column fragment of every table is free of blanks at both ends,
    holds no newline and holds at most one double quote. *)
Theorem fragments_are_clean (s : string) :
  exists tables,
    parse_create_table s = Ok tables /\
    Forall (fun cols => Forall fragment_ok cols) (map snd tables).
Proof.
  eexists. split; [apply parse_create_table_fold|].
  apply fold_set_table_values; [apply parse_columns_ok | constructor].
Qed.

(** ** A block laid out by the dump parses back to its columns *)

Lemma lstrip_by_app_all (p : ascii -> bool) :
  forall a s, all_chars p a = true ->
              Str.lstrip_by p (a +++ s) = Str.lstrip_by p s.
Proof.
  induction a as [|c a IH]; intros s H; [reflexivity|].
  simpl in H. apply andb_true_iff in H as [Hc H].
  cbn [String.append Str.lstrip_by]. rewrite Hc. auto.
Qed.

Lemma rstrip_by_all (p : ascii -> bool) :
  forall t, all_chars p t = true -> Str.rstrip_by p t = "".
Proof.
  induction t as [|c t IH]; intro H; [reflexivity|].
  simpl in H. apply andb_true_iff in H as [Hc H].
  cbn [Str.rstrip_by]. rewrite IH, Hc by assumption. reflexivity.
Qed.

Lemma rstrip_by_app_all (p : ascii -> bool) (t : string) :
  all_chars p t = true ->
  forall w, Str.rstrip_by p (w +++ t) = Str.rstrip_by p w.
Proof.
  intro H. induction w as [|c w IH].
  - simpl. apply rstrip_by_all, H.
  - cbn [String.append Str.rstrip_by]. rewrite IH. reflexivity.
Qed.

Lemma rstrip_last_not (p : ascii -> bool) :
  forall d, last_not p d = true -> Str.rstrip_by p d = d.
Proof.
  induction d as [|c d IH]; intro H; [discriminate|].
  destruct d as [|c' d'].
  - simpl in H. apply negb_true_iff in H. simpl. rewrite H. reflexivity.
  - cbn [last_not] in H. specialize (IH H).
    cbn [Str.rstrip_by] in *. rewrite IH. reflexivity.
Qed.

Lemma last_not_app (p : ascii -> bool) :
  forall a b, last_not p b = true -> last_not p (a +++ b) = true.
Proof.
  induction a as [|c a IH]; intros b H; [exact H|].
  specialize (IH b H). cbn [String.append last_not].
  destruct (a +++ b); [discriminate IH | exact IH].
Qed.

Lemma last_not_cons (p : ascii -> bool) (c : ascii) (s : string) :
  last_not p s = true -> last_not p (String c s) = true.
Proof. apply (last_not_app p (String c "") s). Qed.

Lemma word_char_plain (c : ascii) :
  Re.is_word c = true ->
  Str.is_space c = false /\ is_dquote c = false /\
  Ascii.eqb c newline = false.
Proof.
  destruct c as [b0 b1 b2 b3 b4 b5 b6 b7].
  destruct b0, b1, b2, b3, b4, b5, b6, b7; intro H;
    try discriminate H; repeat split; reflexivity.
Qed.

Lemma all_chars_impl (p q : ascii -> bool) :
  (forall c, p c = true -> q c = true) ->
  forall s, all_chars p s = true -> all_chars q s = true.
Proof.
  intro Hpq. induction s as [|c s IH]; intro H; [reflexivity|].
  simpl in *. apply andb_true_iff in H as [Hc H].
  rewrite (Hpq c Hc), IH by assumption. reflexivity.
Qed.

Lemma split_on_free (sep : ascii) :
  forall a,
    all_chars (fun c => negb (Ascii.eqb c sep)) a = true ->
    Str.split_on sep a = [a].
Proof.
  induction a as [|c a IH]; intro H; [reflexivity|].
  simpl in H. apply andb_true_iff in H as [Hc H].
  apply negb_true_iff in Hc.
  cbn [Str.split_on]. rewrite Hc, IH by assumption. reflexivity.
Qed.

Lemma split_on_first (sep : ascii) :
  forall a b,
    all_chars (fun c => negb (Ascii.eqb c sep)) a = true ->
    Str.split_on sep (a +++ String sep b) = a :: Str.split_on sep b.
Proof.
  induction a as [|c a IH]; intros b H.
  - cbn [String.append Str.split_on]. rewrite Ascii.eqb_refl. reflexivity.
  - simpl in H. apply andb_true_iff in H as [Hc H].
    apply negb_true_iff in Hc.
    cbn [String.append Str.split_on]. rewrite Hc, IH by assumption.
    reflexivity.
Qed.

Lemma append_empty_r : forall s, s +++ "" = s.
Proof. induction s as [|c s IH]; simpl; [|rewrite IH]; reflexivity. Qed.

Lemma line_text_eq (n d : string) :
  line_text n d = String dquote (n +++ String dquote (String " " d)).
Proof.
  unfold line_text, quoted. cbn [String.append].
  rewrite append_assoc. reflexivity.
Qed.

Lemma all_space_repeat (k : nat) :
  all_chars Str.is_space (Str.repeat_char " " k) = true.
Proof. induction k as [|k IH]; [reflexivity | exact IH]. Qed.

(** What [is_column] gives about the two parts. *)
Lemma is_column_inv (n d : string) :
  is_column (n, d) = true ->
  (exists c n', n = String c n' /\ Str.is_space c = false) /\
  all_chars (Re.test (Re.Not dquote)) n = true /\
  all_chars (Re.test (Re.Not dquote)) d = true /\
  no_newline n = true /\ no_newline d = true /\
  last_not Str.is_space d = true /\ last_not (Ascii.eqb comma) d = true.
Proof.
  unfold is_column, is_identifier, is_declaration. cbn [fst snd]. intro H.
  apply andb_true_iff in H as [Hn Hd].
  apply andb_true_iff in Hn as [Hne Hw].
  apply andb_true_iff in Hd as [Hd Hcm].
  apply andb_true_iff in Hd as [Hpl Hsp].
  repeat split; auto.
  - destruct n as [|c n']; [discriminate|]. exists c, n'. split; auto.
    simpl in Hw. apply andb_true_iff in Hw as [Hc _].
    apply (word_char_plain c Hc).
  - apply (all_chars_impl Re.is_word); [|exact Hw].
    intros c Hc. rewrite not_dquote_test.
    destruct (word_char_plain c Hc) as (_ & -> & _). reflexivity.
  - eapply all_chars_impl; [|exact Hpl].
    intros c Hc. apply andb_true_iff in Hc as [_ Hc]. exact Hc.
  - apply (all_chars_impl Re.is_word); [|exact Hw].
    intros c Hc. destruct (word_char_plain c Hc) as (_ & _ & ->). reflexivity.
  - eapply all_chars_impl; [|exact Hpl].
    intros c Hc. apply andb_true_iff in Hc as [Hc _]. exact Hc.
Qed.

(** A line of the block, whatever its indentation and with or without the
    comma, adds the fragment of its column. *)
Lemma add_column_line (k : nat) (n d tail : string) (acc : list string) :
  is_column (n, d) = true ->
  tail = "" \/ tail = "," ->
  add_column acc (Str.repeat_char " " k +++ line_text n d +++ tail) =
    acc ++ [fragment_of (n, d)].
Proof.
  intros Hcol Htail.
  destruct (is_column_inv n d Hcol)
    as ((c0 & n0 & Hn & Hc0) & Hqn & Hqd & _ & _ & Hsp & Hcm).
  assert (Hstrip : Str.strip (Str.repeat_char " " k +++ line_text n d +++ tail)
                   = line_text n d +++ tail).
  { unfold Str.strip.
    rewrite lstrip_by_app_all by apply all_space_repeat.
    rewrite line_text_eq. cbn [String.append].
    rewrite lstrip_nonblank by reflexivity.
    apply rstrip_last_not.
    apply last_not_cons. rewrite append_assoc. apply last_not_app.
    cbn [String.append]. do 2 apply last_not_cons.
    destruct Htail as [-> | ->];
      [rewrite append_empty_r; exact Hsp | apply last_not_app; reflexivity]. }
  assert (Hlast : last_not (Ascii.eqb comma) (line_text n d) = true).
  { rewrite line_text_eq.
    apply last_not_cons, last_not_app. do 2 apply last_not_cons.
    exact Hcm. }
  assert (Hcomma : Str.rstrip_comma (line_text n d +++ tail) = line_text n d).
  { unfold Str.rstrip_comma. destruct Htail as [-> | ->].
    - rewrite append_empty_r. apply rstrip_last_not, Hlast.
    - rewrite rstrip_by_app_all by reflexivity.
      apply rstrip_last_not, Hlast. }
  assert (Hsub : Re.sub quoted_pattern (Re.backref 1) (line_text n d) =
                 fragment_of (n, d)).
  { rewrite quotes_removed_in_pairs, line_text_eq.
    cbn [count_quotes]. rewrite count_quotes_app. cbn [count_quotes].
    rewrite (count_quotes_free n Hqn), (count_quotes_free d Hqd).
    cbn [is_dquote]. cbn. rewrite drop_quotes_app by assumption.
    cbn. rewrite drop_quotes_0. reflexivity. }
  assert (Hfrag : Str.strip (fragment_of (n, d)) = fragment_of (n, d)).
  { unfold Str.strip, fragment_of. cbn [fst snd]. rewrite Hn.
    cbn [String.append]. rewrite lstrip_nonblank by assumption.
    apply rstrip_last_not.
    apply last_not_cons, last_not_app, last_not_cons. exact Hsp. }
  unfold add_column. rewrite Hstrip, Hcomma.
  replace (Str.is_nonempty (line_text n d)
           && negb (Str.startswith "--" (line_text n d))) with true
    by (rewrite line_text_eq; reflexivity).
  rewrite Hsub, Hfrag. reflexivity.
Qed.

Lemma line_no_newline (k : nat) (n d tail : string) :
  is_column (n, d) = true ->
  tail = "" \/ tail = "," ->
  all_chars (fun c => negb (Ascii.eqb c newline))
            (Str.repeat_char " " k +++ line_text n d +++ tail) = true.
Proof.
  intros Hcol Htail.
  destruct (is_column_inv n d Hcol) as (_ & _ & _ & Hn & Hd & _ & _).
  unfold no_newline in *.
  rewrite all_chars_app, line_text_eq. apply andb_true_iff. split.
  - clear. induction k as [|k IH]; [reflexivity | exact IH].
  - cbn [String.append all_chars]. rewrite !all_chars_app.
    cbn [all_chars]. rewrite ?all_chars_app, Hn, Hd.
    destruct Htail as [-> | ->]; reflexivity.
Qed.

Lemma last_not_unindented :
  forall rest n d,
    is_column (n, d) = true -> forallb is_column rest = true ->
    last_not Str.is_space (unindented n d rest) = true.
Proof.
  induction rest as [|[n' d'] rest IH]; intros n d Hcol Hrest;
    cbn [unindented]; rewrite line_text_eq.
  - destruct (is_column_inv n d Hcol) as (_ & _ & _ & _ & _ & Hsp & _).
    rewrite append_empty_r.
    apply last_not_cons, last_not_app. do 2 apply last_not_cons. exact Hsp.
  - cbn [forallb] in Hrest. apply andb_true_iff in Hrest as [Hcol' Hrest].
    apply last_not_app. apply (last_not_app _ ","), (last_not_app _ nl),
      (last_not_app _ "    "). apply IH; assumption.
Qed.

Lemma parse_block_lines :
  forall rest n d k acc,
    is_column (n, d) = true -> forallb is_column rest = true ->
    fold_left add_column
      (Str.split_on newline (Str.repeat_char " " k +++ unindented n d rest))
      acc =
    acc ++ map fragment_of ((n, d) :: rest).
Proof.
  induction rest as [|[n' d'] rest IH]; intros n d k acc Hcol Hrest;
    cbn [unindented].
  - rewrite split_on_free by (apply line_no_newline; auto).
    cbn [fold_left map]. apply add_column_line; auto.
  - cbn [forallb] in Hrest. apply andb_true_iff in Hrest as [Hcol' Hrest].
    replace (Str.repeat_char " " k +++ line_text n d +++
             "," +++ nl +++ "    " +++ unindented n' d' rest)
      with ((Str.repeat_char " " k +++ line_text n d +++ ",") +++
            String newline (Str.repeat_char " " 4 +++ unindented n' d' rest))
      by (rewrite !append_assoc; reflexivity).
    rewrite split_on_first by (apply line_no_newline; auto).
    cbn [fold_left]. rewrite add_column_line by auto.
    rewrite IH by assumption. rewrite <- app_assoc. reflexivity.
Qed.

Lemma parse_columns_block (cols : list (string * string)) :
  forallb is_column cols = true ->
  parse_columns (column_block cols) = map fragment_of cols.
Proof.
  destruct cols as [|[n d] rest]; intro H; [reflexivity|].
  cbn [forallb] in H. apply andb_true_iff in H as [Hcol Hrest].
  unfold parse_columns, column_block, column_lines.
  assert (Hstrip : Str.strip (nl +++ ("    " +++ unindented n d rest) +++ nl)
                   = unindented n d rest).
  { unfold Str.strip.
    replace (nl +++ ("    " +++ unindented n d rest) +++ nl)
      with ((nl +++ "    ") +++ unindented n d rest +++ nl)
      by (rewrite !append_assoc; reflexivity).
    rewrite lstrip_by_app_all by reflexivity.
    assert (Hhead : exists t, unindented n d rest = String dquote t).
    { destruct rest as [|[n' d'] rest']; cbn [unindented];
        rewrite line_text_eq; cbn [String.append]; eauto. }
    destruct Hhead as (t & Ht).
    rewrite Ht. cbn [String.append].
    rewrite lstrip_nonblank by reflexivity.
    change (String dquote (t +++ nl)) with (String dquote t +++ nl).
    rewrite <- Ht. rewrite rstrip_by_app_all by reflexivity.
    apply rstrip_last_not, last_not_unindented; assumption. }
  rewrite Hstrip.
  apply (parse_block_lines rest n d 0 []); assumption.
Qed.

(** A table definition laid out the way the dump writes it (a column to a
    line, names quoted, lines separated by commas) yields the mapping that
    binds its name to the list of its columns, each as name, blank,
    declaration. *)
Theorem dump_table_round_trip (name : string) (cols : list (string * string)) :
  is_identifier name = true ->
  forallb is_column cols = true ->
  Str.contains ");" (column_block cols) = false ->
  parse_create_table (table_statement name (column_block cols)) =
    Ok [(name, map fragment_of cols)].
Proof.
  intros Hn Hcols Hclose.
  rewrite parse_create_table_fold.
  rewrite <- (append_empty_r (table_statement name (column_block cols))).
  erewrite scan_match;
    [ | apply table_statement_match; assumption | reflexivity | reflexivity ].
  cbn [fold_left]. unfold Re.finditer. cbn [Re.scan].
  replace (Re.match_at table_pattern "") with (@None (Re.matched * string))
    by reflexivity.
  cbn [fold_left]. unfold set_table, Re.backref.
  cbn [Re.groups Re.lookup Nat.eqb Dict.set].
  rewrite parse_columns_block by assumption. reflexivity.
Qed.

Lemma dump_table_round_trip_witness :
  parse_create_table
    (table_statement "places"
       (column_block [("id", "bigint NOT NULL");
                      ("name", "character varying");
                      ("lat", "numeric(10,6)")])) =
  Ok [("places", ["id bigint NOT NULL"; "name character varying";
                  "lat numeric(10,6)"])].
Proof.
  apply (dump_table_round_trip "places"
           [("id", "bigint NOT NULL"); ("name", "character varying");
            ("lat", "numeric(10,6)")]); reflexivity.
Defined.

(** * The run *)

(** ** Rules for specifications *)

Section HoareRules.
Context {A B : Type}.

Lemma hoare_conseq (P P' : world -> Prop) (c : IO A)
    (Q Q' : A -> world -> Prop) (E E' : exn -> world -> Prop) :
  hoare P' c Q' E' ->
  (forall w, P w -> P' w) ->
  (forall a w, Q' a w -> Q a w) ->
  (forall e w, E' e w -> E e w) ->
  hoare P c Q E.
Proof.
  intros H HP HQ HE w Hw. specialize (H w (HP w Hw)).
  destruct (c w) as [[a|e] w']; auto.
Qed.

Lemma hoare_bind (P : world -> Prop) (c : IO A) (Q : A -> world -> Prop)
    (k : A -> IO B) (R : B -> world -> Prop) (E : exn -> world -> Prop) :
  hoare P c Q E ->
  (forall a, hoare (Q a) (k a) R E) ->
  hoare P (io_bind c k) R E.
Proof.
  intros Hc Hk w Hw. unfold io_bind. specialize (Hc w Hw).
  destruct (c w) as [[a|e] w']; [apply (Hk a w' Hc) | exact Hc].
Qed.

Lemma hoare_pure (phi : Prop) (P : world -> Prop) (c : IO A)
    (Q : A -> world -> Prop) (E : exn -> world -> Prop) :
  (phi -> hoare P c Q E) -> hoare (fun w => phi /\ P w) c Q E.
Proof. intros H w [Hphi Hw]. apply (H Hphi w Hw). Qed.

Lemma hoare_lift (P : world -> Prop) (r : res A) (E : exn -> world -> Prop) :
  (forall e w, r = Raise e -> P w -> E e w) ->
  hoare P (lift r) (fun a w => r = Ok a /\ P w) E.
Proof. intros HE w Hw. unfold lift. destruct r; auto. Qed.
End HoareRules.

Lemma hoare_when (P Q : world -> Prop) (b : bool) (c : IO unit)
    (E : exn -> world -> Prop) :
  (b = true -> hoare P c (fun _ => Q) E) ->
  (b = false -> forall w, P w -> Q w) ->
  hoare P (when b c) (fun _ => Q) E.
Proof.
  intros Ht Hf. destruct b; simpl; [auto|].
  intros w Hw. simpl. auto.
Qed.

Lemma hoare_for_inv {A : Type} (I : world -> Prop) (body : A -> IO unit)
    (E : exn -> world -> Prop) :
  forall xs,
    (forall x, In x xs -> hoare I (body x) (fun _ => I) E) ->
    hoare I (for_ xs body) (fun _ => I) E.
Proof.
  induction xs as [|x xs IH]; intro H; simpl.
  - intros w Hw. exact Hw.
  - apply hoare_bind with (Q := fun _ => I).
    + apply H. left; reflexivity.
    + intros _. apply IH. intros y Hy. apply H. right; exact Hy.
Qed.

(** A loop that keeps [I] and learns [phi] of every item it gets past. *)
Lemma hoare_for_all {A : Type} (I : world -> Prop) (phi : A -> Prop)
    (body : A -> IO unit) (E : exn -> world -> Prop) :
  forall xs,
    (forall x, In x xs -> hoare I (body x) (fun _ w => phi x /\ I w) E) ->
    hoare I (for_ xs body) (fun _ w => Forall phi xs /\ I w) E.
Proof.
  induction xs as [|x xs IH]; intro H; simpl.
  - intros w Hw. simpl. auto.
  - apply hoare_bind with (Q := fun _ w => phi x /\ I w).
    + apply H. left; reflexivity.
    + intros _. apply hoare_pure. intro Hx.
      eapply hoare_conseq;
        [apply IH; intros y Hy; apply H; right; exact Hy
        | auto | | intros e w He; exact He].
      intros _ w [Hxs Hw]. auto.
Qed.

(** A loop whose body extends what an assertion is indexed by. *)
Lemma hoare_for_acc {A : Type} (W : string -> world -> Prop)
    (g : A -> string) (body : A -> IO unit) (E : exn -> world -> Prop) :
  (forall x acc, hoare (W acc) (body x) (fun _ => W (acc +++ g x)) E) ->
  forall xs acc,
    hoare (W acc) (for_ xs body) (fun _ => W (acc +++ concat_map g xs)) E.
Proof.
  intro H. induction xs as [|x xs IH]; intro acc; simpl.
  - intros w Hw. simpl. rewrite append_empty_r. exact Hw.
  - apply hoare_bind with (Q := fun _ => W (acc +++ g x)); [apply H|].
    intros _. rewrite <- append_assoc. apply IH.
Qed.

(** ** The primitives *)

Section Primitives.
Variable w0 : world.
Variables (F : Dict.t string) (D : list string).
Variable E : exn -> world -> Prop.

Lemma hoare_print (line : string) :
  hoare (state w0 F D) (print line) (fun _ => state w0 F D) E.
Proof.
  intros w (Hf & Hd & Ht & out & Hc). simpl.
  repeat split; auto. exists (out ++ [line]).
  rewrite Hc, app_assoc. reflexivity.
Qed.

Lemma hoare_popen_date :
  hoare (state w0 F D) popen_date
        (fun d w => d = date_output w0 /\ state w0 F D w) E.
Proof.
  intros w Hw. simpl. split; [|exact Hw].
  destruct Hw as (_ & _ & Ht & _). exact Ht.
Qed.

Lemma hoare_path_exists (p : string) :
  hoare (state w0 F D) (path_exists p)
        (fun b w => b = Dict.mem p F || has_dir D p /\ state w0 F D w) E.
Proof.
  intros w Hw. simpl. split; [|exact Hw].
  destruct Hw as (<- & <- & _). reflexivity.
Qed.
End Primitives.

Lemma set_set {V : Type} (k : string) (v v' : V) :
  forall d : Dict.t V, Dict.set k v' (Dict.set k v d) = Dict.set k v' d.
Proof.
  induction d as [|[k0 v0] d IH]; simpl.
  - rewrite String.eqb_refl. reflexivity.
  - destruct (String.eqb k0 k) eqn:E; simpl; rewrite E; [reflexivity|].
    rewrite IH. reflexivity.
Qed.

Section FilePrimitives.
Variable w0 : world.
Variables (F : Dict.t string) (D : list string).

Lemma hoare_read_text (p : string) :
  hoare (state w0 F D) (read_text p)
        (fun text w => (Dict.get F p = Some text /\ has_dir D p = false) /\
                       state w0 F D w)
        (fun e w => state w0 F D w /\
                    ((e = IsADirectoryError /\ has_dir D p = true) \/
                     (e = FileNotFoundError /\ has_dir D p = false /\
                      Dict.mem p F = false))).
Proof.
  intros w Hw. pose proof Hw as (Hf & Hd & _). unfold read_text, is_dir.
  rewrite Hf, Hd. fold (has_dir D p).
  destruct (has_dir D p) eqn:Ed; [auto|].
  unfold Dict.mem. destruct (Dict.get F p); auto.
Qed.

Lemma hoare_mkdir (p : string) :
  hoare (state w0 F D) (mkdir_exist_ok p)
        (fun _ w => (has_dir D p = true \/ Dict.mem p F = false) /\
                    state w0 F (dirs_with D p) w)
        (fun e w => state w0 F D w /\ e = FileExistsError /\
                    has_dir D p = false /\ Dict.mem p F = true).
Proof.
  intros w Hw. pose proof Hw as (Hf & Hd & Ht & Hc).
  unfold mkdir_exist_ok, is_dir, dirs_with.
  rewrite Hf, Hd. fold (has_dir D p).
  destruct (has_dir D p) eqn:Ed; [auto|].
  destruct (Dict.mem p F) eqn:Em; [auto|].
  simpl. repeat split; auto.
Qed.

Lemma hoare_open_w (p : string) :
  hoare (state w0 F D) (open_w p)
        (fun _ w => has_dir D p = false /\ state w0 (Dict.set p "" F) D w)
        (fun e w => state w0 F D w /\ e = IsADirectoryError /\
                    has_dir D p = true).
Proof.
  intros w Hw. pose proof Hw as (Hf & Hd & Ht & Hc).
  unfold open_w, is_dir. rewrite Hd. fold (has_dir D p).
  destruct (has_dir D p) eqn:Ed; [auto|].
  simpl. rewrite Hf. repeat split; auto.
Qed.

(** Writing to the open file never raises and appends. *)
Lemma hoare_write (p acc text : string) (E : exn -> world -> Prop) :
  hoare (state w0 (Dict.set p acc F) D) (write p text)
        (fun _ => state w0 (Dict.set p (acc +++ text) F) D) E.
Proof.
  intros w (Hf & Hd & Ht & Hc). unfold write.
  rewrite Hf, get_set_same. simpl. rewrite set_set.
  repeat split; auto.
Qed.
End FilePrimitives.

(** ** Lookups and calls that cannot fail *)

Lemma hoare_bind_ok {A B : Type} (P : world -> Prop) (a : A) (k : A -> IO B)
    (Q : B -> world -> Prop) (E : exn -> world -> Prop) :
  hoare P (k a) Q E -> hoare P (io_bind (lift (Ok a)) k) Q E.
Proof. intros H w Hw. apply (H w Hw). Qed.

Lemma hoare_columns_of (P : world -> Prop) (tables : tables_t)
    (table : string) (E : exn -> world -> Prop) :
  Dict.mem table tables = true ->
  hoare P (columns_of tables table)
        (fun cols w => Dict.get tables table = Some cols /\ P w) E.
Proof.
  unfold Dict.mem, columns_of, lift. intros Hm w Hw.
  destruct (Dict.get tables table); [auto | discriminate].
Qed.

Lemma keys_mem {V : Type} :
  forall (d : Dict.t V) k, In k (Dict.keys d) -> Dict.mem k d = true.
Proof.
  unfold Dict.mem.
  induction d as [|[k0 v0] d IH]; intros k H; simpl in *; [contradiction|].
  destruct (String.eqb k0 k) eqn:E; [reflexivity|].
  destruct H as [->|H]; [rewrite String.eqb_refl in E; discriminate|].
  apply IH, H.
Qed.

Lemma junction_mem (tables : tables_t) (table : string) :
  In table (junction_tables tables) -> Dict.mem table tables = true.
Proof.
  unfold junction_tables. intro H. apply filter_In in H as [H _].
  apply keys_mem, H.
Qed.

Lemma ts_field_raise (col : string) (e : exn) :
  ts_field col = Raise e -> e = IndexError /\ Str.split col = [].
Proof.
  unfold ts_field, col_name.
  destruct (Str.split col); [intros [= <-]; auto | discriminate].
Qed.

Lemma has_dir_with_other (D : list string) (p q : string) :
  String.eqb q p = false -> has_dir (dirs_with D p) q = has_dir D q.
Proof.
  intro H. unfold dirs_with. destruct (has_dir D p); [reflexivity|].
  unfold has_dir. rewrite existsb_app. simpl. rewrite H.
  rewrite !orb_false_r. reflexivity.
Qed.

(** ** The specification of the whole run *)

Lemma hoare_bind_exn {A B : Type} (P : world -> Prop) (c : IO A)
    (Q : A -> world -> Prop) (k : A -> IO B) (R : B -> world -> Prop)
    (E E' : exn -> world -> Prop) :
  hoare P c Q E' ->
  (forall e w, E' e w -> E e w) ->
  (forall a, hoare (Q a) (k a) R E) ->
  hoare P (io_bind c k) R E.
Proof.
  intros Hc HE Hk. apply hoare_bind with (Q := Q); [|exact Hk].
  intros w Hw. specialize (Hc w Hw).
  destruct (c w) as [[a|e] w']; auto.
Qed.

Lemma hoare_post {A : Type} (P : world -> Prop) (c : IO A)
    (Q Q' : A -> world -> Prop) (E : exn -> world -> Prop) :
  hoare P c Q' E -> (forall a w, Q' a w -> Q a w) -> hoare P c Q E.
Proof. intros H HQ. apply (hoare_conseq P P c Q Q' E E); auto. Qed.

Ltac io_print := eapply hoare_bind; [apply hoare_print | intros []; cbv beta].

(** The run once the input is known to exist. *)
Lemma run_found_spec (w0 : world) :
  Dict.mem schema_file (files w0) || is_dir w0 schema_file = true ->
  forall w,
    state w0 (files w0) (dirs w0) w ->
    match analyze_terrastories_schema w with
    | (Ok _, w') => run_returned w0 w'
    | (Raise e, w') => run_raised w0 e w'
    end.
Proof.
  intros Hfound.
  assert (Hfound' : Dict.mem schema_file (files w0)
                    || has_dir (dirs w0) schema_file = true) by exact Hfound.
  change (hoare (state w0 (files w0) (dirs w0)) analyze_terrastories_schema
                (fun _ => run_returned w0) (run_raised w0)).
  unfold analyze_terrastories_schema.
  eapply hoare_bind; [apply hoare_path_exists | intro found].
  apply hoare_pure. intros ->.
  rewrite Hfound'. cbn [negb].
  (* read *)
  eapply hoare_bind_exn; [apply hoare_read_text | | intro text].
  { intros e w ((Hf & Hd & Ht & Hc) & [[-> Hdir] | (-> & Hnd & Hnm)]).
    - split; [exact Hf|]. split; [exact Ht|]. split; [exact Hc|].
      left. split; [exact Hdir | exact Hd].
    - exfalso. rewrite Hnd, Hnm in Hfound'. discriminate. } apply hoare_pure. intros [Hget Hnotdir].
  io_print.
  rewrite parse_create_table_fold. apply hoare_bind_ok.
  set (tables := fold_left set_table (Re.finditer table_pattern text) []).
  io_print. io_print.
  (* the core tables on the console *)
  eapply hoare_bind.
  { apply hoare_for_inv. intros table _.
    apply hoare_when; [intro Hmem | auto].
    eapply hoare_bind; [apply hoare_columns_of, Hmem | intro cols].
    apply hoare_pure. intros _.
    io_print.
    eapply hoare_bind;
      [apply hoare_for_inv; intros; apply hoare_print | intros []; cbv beta].
    apply hoare_when; [intros _; apply hoare_print | auto]. }
  intros []; cbv beta.
  io_print. io_print.
  (* the junction tables *)
  eapply hoare_bind.
  { apply hoare_for_inv. intros table Hj.
    io_print.
    eapply hoare_bind;
      [apply hoare_columns_of, junction_mem, Hj | intro cols].
    apply hoare_pure. intros _.
    apply hoare_for_inv; intros; apply hoare_print. }
  intros []; cbv beta.
  io_print. io_print.
  eapply hoare_bind;
    [apply hoare_for_inv; intros; apply hoare_print | intros []; cbv beta].
  rewrite parse_foreign_keys_map. apply hoare_bind_ok.
  set (fks := map fk_of_match (Re.finditer fk_pattern text)).
  io_print. io_print.
  eapply hoare_bind;
    [apply hoare_for_inv; intros; apply hoare_print | intros []; cbv beta].
  io_print. io_print. io_print.
  (* the preview *)
  eapply hoare_bind.
  { apply (hoare_for_all _
             (fun table =>
                match Dict.get tables table with
                | Some cols =>
                    forallb (fun col => match Str.split col with
                                        | [] => false
                                        | _ :: _ => true
                                        end) (firstn 5 cols)
                | None => true
                end = true)).
    intros table Hcore. apply hoare_when.
    - intro Hmem. io_print. io_print.
      eapply hoare_bind; [apply hoare_columns_of, Hmem | intro cols].
      apply hoare_pure. intros Hcols.
      eapply hoare_bind.
      { apply (hoare_for_all _
                 (fun col => match Str.split col with
                             | [] => false
                             | _ :: _ => true
                             end = true)).
        intros col Hcol.
        eapply hoare_bind; [apply hoare_lift | intro line].
        - intros e w He (Hf & Hd & Ht & Hc).
          apply ts_field_raise in He as [-> Hsplit].
          split; [exact Hf|]. split; [exact Ht|]. split; [exact Hc|].
          split; [exact Hd|].
          exists text, tables. split; [exact Hget|].
          split; [apply parse_create_table_fold|].
          exists table, cols, col. auto.
        - apply hoare_pure. intros Hline.
          eapply hoare_post; [apply hoare_print|].
          intros [] w Hw. split; [|exact Hw].
          unfold ts_field, col_name in Hline.
          destruct (Str.split col); [discriminate Hline | reflexivity]. }
      intros []; cbv beta. apply hoare_pure. intro Hall.
      io_print. eapply hoare_post; [apply hoare_print|].
      intros [] w Hw. split; [|exact Hw].
      rewrite Hcols. apply forallb_forall. apply Forall_forall, Hall.
    - unfold Dict.mem. intros Hmem w Hw. split; [|exact Hw].
      destruct (Dict.get tables table); [discriminate | reflexivity]. }
  intros []; cbv beta. apply hoare_pure. intro Hprev.
  assert (Hok : previews_ok tables = true).
  { unfold previews_ok. apply forallb_forall. apply Forall_forall, Hprev. }
  do 7 io_print.
  (* the summary file *)
  eapply hoare_bind_exn; [apply hoare_mkdir | | intros []; cbv beta].
  { intros e w ((Hf & Hd & Ht & Hc) & -> & Hnd & Hm).
    split; [exact Hf|]. split; [exact Ht|]. split; [exact Hc|].
    split; [exact Hm|]. split; [exact Hnd | exact Hd]. }
  apply hoare_pure. intro Hmk.
  eapply hoare_bind_exn; [apply hoare_open_w | | intros []; cbv beta].
  { intros e w ((Hf & Hd & Ht & Hc) & -> & Hnd).
    rewrite has_dir_with_other in Hnd by reflexivity.
    split; [exact Hf|]. split; [exact Ht|]. split; [exact Hc|].
    right. split; [exact Hnd | exact Hd]. }
  apply hoare_pure. intro Hop.
  rewrite has_dir_with_other in Hop by reflexivity.
  eapply hoare_bind; [apply hoare_write | intros []; cbv beta].
  eapply hoare_bind; [apply hoare_popen_date | intro date].
  apply hoare_pure. intros ->.
  eapply hoare_bind; [apply hoare_write | intros []; cbv beta].
  eapply hoare_bind; [apply hoare_write | intros []; cbv beta].
  eapply hoare_bind.
  { apply (hoare_for_acc
             (fun acc => state w0 (Dict.set output_file acc (files w0))
                               (dirs_with (dirs w0) output_dir))
             (summary_section tables)).
    intros table acc. unfold summary_section.
    apply hoare_when.
    - intro Hmem.
      eapply hoare_bind; [apply hoare_write | intros []; cbv beta].
      eapply hoare_bind; [apply hoare_columns_of, Hmem | intro cols].
      apply hoare_pure. intros ->.
      rewrite <- (append_assoc acc (nl +++ table +++ ":" +++ nl)
                    (summary_columns cols)).
      refine (hoare_for_acc
                (fun acc => state w0 (Dict.set output_file acc (files w0))
                                  (dirs_with (dirs w0) output_dir))
                (fun col => "  " +++ col +++ nl) _ _ _ cols
                (acc +++ nl +++ table +++ ":" +++ nl)).
      intros col acc'. apply hoare_write.
    - unfold Dict.mem. intros Hmem w Hw.
      destruct (Dict.get tables table); [discriminate|].
      rewrite append_empty_r. exact Hw. }
  intros []; cbv beta.
  eapply hoare_bind; [apply hoare_write | intros []; cbv beta].
  eapply hoare_bind.
  { apply (hoare_for_acc
             (fun acc => state w0 (Dict.set output_file acc (files w0))
                               (dirs_with (dirs w0) output_dir))
             (fun fk => fk_line fk +++ nl)).
    intros fk acc. apply hoare_write. }
  intros []; cbv beta.
  eapply hoare_post; [apply hoare_print|].
  intros [] w (Hf & Hd & Ht & Hc). split; [exact Ht|]. split; [exact Hc|].
  right. exists text, tables, fks.
  split; [exact Hget|]. split; [apply parse_create_table_fold|].
  split; [apply parse_foreign_keys_map|].
  split; [|split; [|exact Hd]].
  { split; [exact Hnotdir|]. split; [exact Hok|].
    split; [exact Hmk | exact Hop]. }
  rewrite Hf. unfold summary_text. rewrite !append_assoc. reflexivity.
Qed.

Lemma run_spec (w : world) :
  match analyze_terrastories_schema w with
  | (Ok _, w') => run_returned w w'
  | (Raise e, w') => run_raised w e w'
  end.
Proof.
  destruct (Dict.mem schema_file (files w) || is_dir w schema_file) eqn:Ef.
  - apply run_found_spec; [exact Ef|].
    repeat split. exists []. rewrite app_nil_r. reflexivity.
  - unfold analyze_terrastories_schema. unfold io_bind at 1.
    unfold path_exists. rewrite Ef. cbn [negb]. cbn [print].
    split; [reflexivity|]. split; [cbn [console]; eauto|].
    left. split; [exact Ef|]. auto.
Qed.

Lemma previews_ok_sound (tables : tables_t) :
  previews_ok tables = true -> ~ blank_preview tables.
Proof.
  unfold previews_ok. intros H (table & cols & col & Ht & Hg & Hc & Hs).
  rewrite forallb_forall in H. specialize (H table Ht).
  rewrite Hg in H. rewrite forallb_forall in H. specialize (H col Hc).
  rewrite Hs in H. discriminate H.
Qed.

(** ** What a run does to the world *)

(** When the input path is a directory the guard lets it through and
    opening it raises, before anything is printed or written. *)
Theorem directory_as_input_raises (w : world) :
  is_dir w schema_file = true ->
  analyze_terrastories_schema w = (Raise IsADirectoryError, w).
Proof.
  intro Hd. unfold analyze_terrastories_schema. unfold io_bind at 1.
  unfold path_exists. rewrite Hd, orb_true_r. cbn [negb].
  unfold io_bind at 1. unfold read_text. rewrite Hd. reflexivity.
Qed.

Lemma directory_as_input_raises_witness :
  analyze_terrastories_schema
    {| files := []; dirs := ["dump-analysis"; schema_file];
       console := []; date_output := "" |} =
  (Raise IsADirectoryError,
   {| files := []; dirs := ["dump-analysis"; schema_file];
      console := []; date_output := "" |}).
Proof.
  apply (directory_as_input_raises
           {| files := []; dirs := ["dump-analysis"; schema_file];
              console := []; date_output := "" |}). reflexivity.
Defined.





Lemma incl_dirs_with (D : list string) (p : string) : incl D (dirs_with D p).
Proof.
  unfold dirs_with. destruct (has_dir D p); [apply incl_refl|].
  apply incl_appl, incl_refl.
Qed.

(** Whatever the outcome, the run changes no file but the summary. *)
Theorem run_keeps_other_files (w : world) (p : string) :
  p <> output_file ->
  Dict.get (files (snd (analyze_terrastories_schema w))) p =
    Dict.get (files w) p.
Proof.
  intro Hp. pose proof (run_spec w) as Hs.
  destruct (analyze_terrastories_schema w) as [[[]|e] w']; cbn [snd].
  - destruct Hs as (_ & _ & [(_ & -> & _) | Hs]); [reflexivity|].
    destruct Hs as (text & tables & fks & _ & _ & _ & _ & -> & _).
    apply get_set_other. congruence.
  - destruct Hs as (-> & _). reflexivity.
Qed.

Lemma run_keeps_other_files_witness :
  Dict.get
    (files (snd (analyze_terrastories_schema
                   {| files := [(schema_file, stories_fk_ddl)];
                      dirs := []; console := []; date_output := "" |})))
    schema_file = Some stories_fk_ddl.
Proof.
  rewrite (run_keeps_other_files
             {| files := [(schema_file, stories_fk_ddl)];
                dirs := []; console := []; date_output := "" |}
             schema_file) by discriminate.
  reflexivity.
Defined.

(** Whatever the outcome, the run only adds: lines to the console and
    directories to the ones there were. *)
Theorem run_only_adds (w : world) :
  (exists out,
     console (snd (analyze_terrastories_schema w)) = console w ++ out) /\
  incl (dirs w) (dirs (snd (analyze_terrastories_schema w))).
Proof.
  pose proof (run_spec w) as Hs.
  destruct (analyze_terrastories_schema w) as [[[]|e] w']; cbn [snd].
  - destruct Hs as (_ & Hc & Hs). split; [exact Hc|].
    destruct Hs as [(_ & _ & -> & _) | Hs]; [apply incl_refl|].
    destruct Hs as (text & tables & fks & _ & _ & _ & _ & _ & ->).
    apply incl_dirs_with.
  - destruct Hs as (_ & _ & Hc & He). split; [exact Hc|].
    destruct e; try contradiction.
    + destruct He as [-> _]. apply incl_refl.
    + destruct He as [[_ ->] | [_ ->]];
        [apply incl_refl | apply incl_dirs_with].
    + destruct He as (_ & _ & ->). apply incl_refl.
Qed.

Lemma has_dir_with_same (D : list string) (p : string) :
  has_dir (dirs_with D p) p = true.
Proof.
  unfold dirs_with. destruct (has_dir D p) eqn:E; [exact E|].
  unfold has_dir. rewrite existsb_app. simpl.
  rewrite String.eqb_refl. apply orb_true_r.
Qed.

(** A second run on what a completed run left completes too, and leaves
    the files and directories a single run leaves: the summary is written
    over, nothing else is touched. *)
Theorem rerun_overwrites_summary (w w1 v : world) (text : string)
    (tables : tables_t) (fks : list foreign_key) :
  analyze_terrastories_schema w = (Ok tt, w1) ->
  Dict.get (files w) schema_file = Some text ->
  parse_create_table text = Ok tables ->
  parse_foreign_keys text = Ok fks ->
  files v = files w1 ->
  dirs v = dirs w1 ->
  exists v',
    analyze_terrastories_schema v = (Ok tt, v') /\
    files v' =
      Dict.set output_file (summary_text (date_output v) tables fks)
               (files w) /\
    dirs v' = dirs w1.
Proof.
  intros Hrun Hget Ht Hk Hfv Hdv.
  assert (Hmem : Dict.mem schema_file (files w) = true)
    by (unfold Dict.mem; rewrite Hget; reflexivity).
  pose proof (run_spec w) as Hs. rewrite Hrun in Hs.
  destruct Hs as (_ & _ & [(Hnf & _) | Hs]);
    [rewrite Hmem in Hnf; discriminate Hnf|].
  destruct Hs as (text' & tables' & fks' & Hget' & Ht' & Hk'
                  & (Hsd & Hok & Hod & Hof) & Hf1 & Hd1).
  rewrite Hget in Hget'. injection Hget' as <-.
  rewrite Ht in Ht'. injection Ht' as <-.
  rewrite Hk in Hk'. injection Hk' as <-.
  assert (Hgetv : Dict.get (files v) schema_file = Some text).
  { rewrite Hfv, Hf1, get_set_other by discriminate. exact Hget. }
  assert (Hmemv : Dict.mem schema_file (files v) = true)
    by (unfold Dict.mem; rewrite Hgetv; reflexivity).
  pose proof (run_spec v) as Hv.
  destruct (analyze_terrastories_schema v) as [[[]|e] v'].
  - exists v'. split; [reflexivity|].
    destruct Hv as (_ & _ & [(Hnf & _) | Hv]);
      [rewrite Hmemv in Hnf; discriminate Hnf|].
    destruct Hv as (text' & tables' & fks' & Hget' & Ht' & Hk' & _ & Hf2 & Hd2).
    rewrite Hgetv in Hget'. injection Hget' as <-.
    rewrite Ht in Ht'. injection Ht' as <-.
    rewrite Hk in Hk'. injection Hk' as <-.
    split.
    + rewrite Hf2, Hfv, Hf1. apply set_set.
    + rewrite Hd2, Hdv, Hd1. unfold dirs_with at 1.
      rewrite has_dir_with_same. reflexivity.
  - exfalso. destruct Hv as (_ & _ & _ & He).
    unfold is_dir in He. rewrite Hdv, Hd1 in He.
    fold (has_dir (dirs_with (dirs w) output_dir) schema_file) in He.
    fold (has_dir (dirs_with (dirs w) output_dir) output_file) in He.
    fold (has_dir (dirs_with (dirs w) output_dir) output_dir) in He.
    destruct e; try contradiction.
    + destruct He as (_ & text' & tables' & Hget' & Ht' & Hb).
      rewrite Hgetv in Hget'. injection Hget' as <-.
      rewrite Ht in Ht'. injection Ht' as <-.
      apply (previews_ok_sound tables Hok Hb).
    + rewrite !has_dir_with_other in He by reflexivity.
      unfold is_dir in Hsd, Hof.
      fold (has_dir (dirs w) schema_file) in Hsd.
      fold (has_dir (dirs w) output_file) in Hof.
      destruct He as [[He _] | [He _]]; congruence.
    + rewrite has_dir_with_same in He. destruct He as (_ & He & _).
      discriminate He.
Qed.

Lemma rerun_overwrites_summary_witness :
  exists w1 v',
    analyze_terrastories_schema
      {| files := [(schema_file, users_ddl_lines)]; dirs := [];
         console := []; date_output := "Tue" |} = (Ok tt, w1) /\
    analyze_terrastories_schema w1 = (Ok tt, v') /\
    files v' =
      Dict.set output_file
        (summary_text (date_output w1)
           [("users", ["id bigint NOT NULL"; "name character varying"])] [])
        [(schema_file, users_ddl_lines)] /\
    dirs v' = dirs w1.
Proof.
  remember (analyze_terrastories_schema
              {| files := [(schema_file, users_ddl_lines)]; dirs := [];
                 console := []; date_output := "Tue" |})
    as rw eqn:E.
  destruct rw as [r w1].
  assert (Hr : r = Ok tt).
  { change r with (fst (r, w1)). rewrite E. vm_compute. reflexivity. }
  subst r. symmetry in E.
  destruct (rerun_overwrites_summary _ w1 w1 users_ddl_lines
              [("users", ["id bigint NOT NULL"; "name character varying"])]
              [] E eq_refl eq_refl eq_refl eq_refl eq_refl)
    as (v' & Hrun & Hfv & Hdv).
  exists w1, v'. auto.
Defined.

(** * Whole dumps parse back *)

Lemma match_at_fk_other (c : ascii) (s : string) :
  Ascii.eqb "A" c = false -> Re.match_at fk_pattern (String c s) = None.
Proof.
  intro H. unfold Re.match_at, fk_pattern. cbn [Re.run Re.lit].
  rewrite H. reflexivity.
Qed.


Lemma finditer_skip (r : Re.regex) (c : ascii) (s : string) :
  Re.match_at r (String c s) = None ->
  Re.finditer r (String c s) = Re.finditer r s.
Proof. intro H. unfold Re.finditer. cbn [Re.scan]. rewrite H. reflexivity. Qed.

Lemma fk_of_match_statement (text : string) (fk : foreign_key) :
  fk_of_match
    {| Re.whole := text;
       Re.groups := [(5, target_column fk); (4, target_table fk);
                     (3, source_column fk); (2, constraint_name fk);
                     (1, source_table fk)] |} = fk.
Proof. destruct fk. reflexivity. Qed.

Lemma finditer_fk_dump (only : bool) :
  forall fks,
    forallb well_formed_fk fks = true ->
    map fk_of_match (Re.finditer fk_pattern (fk_dump only fks)) = fks.
Proof.
  induction fks as [|fk fks IH]; intro H; [reflexivity|].
  cbn [forallb] in H. apply andb_true_iff in H as [Hfk H].
  unfold well_formed_fk in Hfk.
  apply andb_true_iff in Hfk as [Hfk Hcn].
  apply andb_true_iff in Hfk as [Hfk Htc].
  apply andb_true_iff in Hfk as [Hfk Htt].
  apply andb_true_iff in Hfk as [Hst Hsc].
  unfold fk_dump. cbn [concat_map]. fold (fk_dump only fks).
  rewrite append_assoc.
  erewrite scan_match;
    [ | apply fk_statement_match; assumption | reflexivity
      | apply fk_statement_nonempty ].
  unfold nl. cbn [String.append].
  rewrite finditer_skip by (apply match_at_fk_other; reflexivity).
  rewrite finditer_skip by (apply match_at_fk_other; reflexivity).
  cbn [map]. rewrite fk_of_match_statement, IH by assumption.
  reflexivity.
Qed.

(** A dump of foreign-key statements, one to a line and each closed by a
    semicolon, yields its records in order, column lists whole. *)
Theorem fk_dump_round_trip (only : bool) (fks : list foreign_key) :
  forallb well_formed_fk fks = true ->
  parse_foreign_keys (fk_dump only fks) = Ok fks.
Proof.
  intro H. rewrite parse_foreign_keys_map, finditer_fk_dump by assumption.
  reflexivity.
Qed.

Lemma fk_dump_round_trip_witness :
  parse_foreign_keys
    (fk_dump true
       [{| source_table := "stories"; source_column := "community_id";
           target_table := "communities"; target_column := "id";
           constraint_name := "fk_a" |};
        {| source_table := "places_stories";
           source_column := "place_id, story_id";
           target_table := "links"; target_column := "p_id, s_id";
           constraint_name := "fk_b" |}]) =
  Ok [{| source_table := "stories"; source_column := "community_id";
         target_table := "communities"; target_column := "id";
         constraint_name := "fk_a" |};
      {| source_table := "places_stories";
         source_column := "place_id, story_id";
         target_table := "links"; target_column := "p_id, s_id";
         constraint_name := "fk_b" |}].
Proof. apply (fk_dump_round_trip true). reflexivity. Defined.







Lemma preview_field_raises_witness : ts_field "" = Raise IndexError.
Proof. apply (preview_field_raises ""). reflexivity. Defined.
